(** * The issue board of [frontend/src/Views/Board.tsx]

    A shallow embedding of the board's reducer [dragReducer], of the
    module-level variables it reads and writes ([issueIdIncrement],
    [issueListsNames], [test]) and of the three event handlers of [App] that
    dispatch to it, followed by the properties of the board's specification.

    Conventions of the embedding.
    - A JavaScript number that the code uses as an index or as a counter is an
      integer of [Z]; the counter is only ever incremented by one, so the
      model agrees with the double-precision original below 2^53.
    - An array is a [list]; [Array.prototype.splice] is written out with its
      clamping of the start index and of the delete count.
    - [undefined] is a value of its own, both as an array element ([EUndef])
      and as the value of a property or of a slot of [test] ([Undef]).
    - An object used as a map from list names to arrays is a [gmap] of its
      own properties; reading a name it neither has nor inherits gives
      [Undef].  A name it does not have but inherits from [Object.prototype]
      ([toString], [constructor], ...) reads as the inherited value, which is
      truthy and is no array: see [inherited].
    - [produce] of immer runs its recipe on a draft of the state: the writes
      of the recipe go to the draft and the base state stays as it was.  The
      model passes the draft through the recipe as a value. *)

From stdpp Require Import base numbers list strings gmap fin_maps pretty.

Open Scope Z_scope.

(** ** Data model *)

(** [Issue] of [ViewModels/Board]: an id and a display text. *)
Record Issue := mkIssue { id : string; content : string }.

#[global] Instance Issue_eq_dec : EqDecision Issue.
Proof. solve_decision. Defined.

(** An element of an issue array: an issue, or [undefined] (what
    [const [removed] = ...] binds when [splice] removed nothing). *)
Inductive elem :=
  | EIssue (i : Issue)
  | EUndef.

#[global] Instance elem_eq_dec : EqDecision elem.
Proof. solve_decision. Defined.

(** The value of [state[name]], of [test[i]] and of [action.myData]: an array
    of issues or [undefined]. *)
Inductive cell :=
  | Arr (l : list elem)
  | Undef.

#[global] Instance cell_eq_dec : EqDecision cell.
Proof. solve_decision. Defined.

(** The state handed to and returned by the reducer.  The initial state and
    the results of MOVE and ADDITEM are plain objects ([rows = None]); the
    results of UPDATE and UPDATELISTS are arrays of one-key objects
    [{ [name]: value }] ([rows = Some l], one pair per object).  [props] are
    the named own properties, which is where [state[name]] reads and writes.
    On an array state these are named properties of the array, as JavaScript
    has them and as the production build of immer lets a recipe write them
    to the arrays the reducer returns; its development build refuses the
    write of a named property to an array draft and throws instead.  The
    application dispatches no MOVE on an array state, since no list is
    rendered from one and nothing can be dragged (see
    [add_list_shows_no_issue]), and what the MOVE case does is stated for
    plain objects, [rows = None], wherever the difference matters. *)
Record jsstate := mkState {
  rows : option (list (string * cell));
  props : gmap string cell
}.

#[global] Instance jsstate_eq_dec : EqDecision jsstate.
Proof. solve_decision. Defined.

(** A plain object with the given properties. *)
Definition obj (m : gmap string cell) : jsstate := mkState None m.

(** An array of one-key objects, with no named property of its own. *)
Definition arr_of_rows (l : list (string * cell)) : jsstate := mkState (Some l) ∅.

(** The actions, by their [type] tag; [OTHER] is any tag the [switch] does not
    list. *)
Inductive action :=
  | MOVE (from to : string) (fromIndex toIndex : Z)
  | ADDITEM (pass : string) (myIndex : nat) (myData : cell)
  | UPDATE (myData1 myData2 myData3 : cell)
  | UPDATELISTS (me : jsstate)
  | OTHER (type : string).

(** The module-level variables of Board.tsx. *)
Record Store := mkStore {
  issueIdIncrement : Z;
  issueListsNames : list string;
  test : list cell
}.

(** What a call of the reducer ends in: a state, the [Error] of a [throw] of
    the reducer's own with its message, or an exception raised under it while
    the recipe runs.  The last is what the MOVE case ends in when
    [state[name]] is an inherited value: the TypeError of calling [splice],
    which such a value does not have, with a message of the engine's wording
    (for the accessor [__proto__] the exception may come from the assignment
    before it). *)
Inductive outcome :=
  | Returned (s : jsstate)
  | Thrown (message : string)
  | RuntimeError.

(** ** JavaScript primitives used by the reducer *)

(** The names of the properties of [Object.prototype]: the methods, and the
    accessor [__proto__].  Every object and every array inherits them, and
    each reads as a function or, for [__proto__], as an object. *)
Definition Object_prototype : list string :=
  [ "constructor"; "hasOwnProperty"; "isPrototypeOf"; "propertyIsEnumerable";
    "toLocaleString"; "toString"; "valueOf";
    "__defineGetter__"; "__defineSetter__"; "__lookupGetter__";
    "__lookupSetter__"; "__proto__" ].

(** [state[name]] finds an inherited property: [Object.prototype] has the
    name and the state has no property of its own to shadow it. *)
Definition inherited (m : gmap string cell) (name : string) : bool :=
  bool_decide (name ∈ Object_prototype) && bool_decide (m !! name = None).

(** [state[name]] for a name that [state[name]] does not find on the
    prototype ([inherited] is for that case): the own property, [undefined]
    when there is none. *)
Definition get (m : gmap string cell) (name : string) : cell :=
  default Undef (m !! name).

(** [c || []]: an array, even an empty one, is truthy; [undefined] is not. *)
Definition or_empty (c : cell) : list elem :=
  match c with
  | Arr l => l
  | Undef => []
  end.

(** The start position [splice] computes from its first argument: a negative
    one counts from the end, and the result is clamped to [0, len]. *)
Definition splice_start (len : nat) (start : Z) : nat :=
  if bool_decide (start < 0)
  then Z.to_nat (Z.max (Z.of_nat len + start) 0)
  else Z.to_nat (Z.min start (Z.of_nat len)).

(** [l.splice(start, deleteCount, ...items)]: the removed elements and the
    array as it is afterwards. *)
Definition splice (l : list elem) (start : Z) (deleteCount : nat)
    (items : list elem) : list elem * list elem :=
  let s := splice_start (length l) start in
  let d := Nat.min deleteCount (length l - s) in
  (take d (drop s l), take s l ++ items ++ drop (s + d) l).

(** [const [removed] = a]: the first element, [undefined] when there is none. *)
Definition first (a : list elem) : elem :=
  match a with
  | x :: _ => x
  | [] => EUndef
  end.

(** [test[i]], [undefined] past the end. *)
Definition test_get (t : list cell) (i : nat) : cell :=
  default Undef (t !! i).

(** [test[i] = v]: an assignment past the end extends the array, the slots in
    between reading as [undefined]. *)
Definition test_set (t : list cell) (i : nat) (v : cell) : list cell :=
  if bool_decide (i < length t)%nat
  then <[i := v]> t
  else t ++ replicate (i - length t) Undef ++ [v].

(** [n.toString()] for an integer. *)
Definition toString (n : Z) : string := pretty n.

(** ** The reducer *)

(** The MOVE case, on the properties of the draft, when neither
    [state[action.from]] nor [state[action.to]] is an inherited property. *)
Definition move (m : gmap string cell) (from to : string)
    (fromIndex toIndex : Z) : gmap string cell :=
  (* state[action.from] = state[action.from] || []; *)
  let m1 := <[from := Arr (or_empty (get m from))]> m in
  (* state[action.to] = state[action.to] || []; *)
  let m2 := <[to := Arr (or_empty (get m1 to))]> m1 in
  (* const [removed] = state[action.from].splice(action.fromIndex, 1); *)
  let '(gone, lf) := splice (or_empty (get m2 from)) fromIndex 1 [] in
  let removed := first gone in
  let m3 := <[from := Arr lf]> m2 in
  (* state[action.to].splice(action.toIndex, 0, removed); *)
  let '(_, lt) := splice (or_empty (get m3 to)) toIndex 0 [removed] in
  <[to := Arr lt]> m3.

(** The issue ADDITEM creates once the counter has been incremented to [n]. *)
Definition new_issue (n : Z) : Issue :=
  mkIssue (toString n) ("Test" +:+ toString n).

(** How the recipe ends: normally, with the draft as the recipe left it and
    the value of its [return] ([None] for a bare [return;]), by a [throw] of
    its own, or by an exception raised under it. *)
Inductive completion :=
  | Normal (draft : jsstate) (ret : option jsstate)
  | Throw (message : string)
  | RuntimeThrow.

(** The function handed to [produce]. *)
Definition recipe (g : Store) (state : jsstate) (a : action)
    : Store * completion :=
  match a with
  | MOVE from to fromIndex toIndex =>
      (* an inherited state[name] is truthy, so that [|| []] keeps it, and it
         has no splice: the call on line 34 or 35 raises a TypeError *)
      if inherited (props state) from || inherited (props state) to
      then (g, RuntimeThrow)
      else (g, Normal (mkState (rows state)
                         (move (props state) from to fromIndex toIndex)) None)
  | ADDITEM pass myIndex myData =>
      (* test[action.myIndex] = new Array(); *)
      let t0 := test_set (test g) myIndex (Arr []) in
      (* if (action.myData != null && action.myData.length > 0)
           action.myData.map(item => test[action.myIndex].push(item)) *)
      let copied :=
        match myData with
        | Arr l => if bool_decide (0 < length l)%nat then l else []
        | Undef => []
        end in
      let t1 := test_set t0 myIndex (Arr (or_empty (test_get t0 myIndex) ++ copied)) in
      (* issueIdIncrement++; *)
      let n := issueIdIncrement g + 1 in
      (* test[action.myIndex].push({ id: ..., content: 'Test' + ... }); *)
      let t2 := test_set t1 myIndex
                  (Arr (or_empty (test_get t1 myIndex) ++ [EIssue (new_issue n)])) in
      (* let wird = { items: test[0], items2: test[1], items3: test[2] }; *)
      let wird := obj (<["items3" := test_get t2 2]>
                      (<["items2" := test_get t2 1]>
                      (<["items" := test_get t2 0]> ∅))) in
      (mkStore n (issueListsNames g) t2, Normal state (Some wird))
  | UPDATE myData1 myData2 myData3 =>
      (* test[0] = action.myData1; test[1] = ...; test[2] = ...; *)
      let t := test_set (test_set (test_set (test g) 0 myData1) 1 myData2) 2 myData3 in
      (* return issueListsNames.map((item) => ({ [item]: test[0] })); *)
      let r := (λ item, (item, test_get t 0)) <$> issueListsNames g in
      (mkStore (issueIdIncrement g) (issueListsNames g) t,
       Normal state (Some (arr_of_rows r)))
  | UPDATELISTS _ =>
      (* issueListsNames.map((item, index) => ({ [item]: state[item] })) *)
      let wird := (λ item, (item, get (props state) item)) <$> issueListsNames g in
      (g, Normal state (Some (arr_of_rows wird)))
  | OTHER _ =>
      (* default: throw new Error(); *)
      (g, Throw "")
  end.

(** [produce(recipe)]: the next state is the draft when the recipe returns
    nothing, and the returned value otherwise; what the recipe throws, or
    what is raised under it, goes on to the caller, and the draft is dropped. *)
Definition produce (r : Store → jsstate → action → Store * completion)
    (g : Store) (base : jsstate) (a : action) : Store * outcome :=
  let '(g', c) := r g base a in
  (g', match c with
       | Normal draft None => Returned draft
       | Normal _ (Some v) => Returned v
       | Throw msg => Thrown msg
       | RuntimeThrow => RuntimeError
       end).

Definition dragReducer : Store → jsstate → action → Store * outcome :=
  produce recipe.

(** ** The component [App]: initial values and event handlers *)

Definition data : list Issue :=
  [ mkIssue "1" "This list is buggy";
    mkIssue "2" "I hate lists like this...";
    mkIssue "3" "Why would react do this to me";
    mkIssue "4" "HAMBURGER PLEAAAAAAAAAAAAAAAASE" ].

Definition data2 : list Issue := [ mkIssue "5" "This list is buggy" ].

(** [const initialState = { items: data }]. *)
Definition initialState : jsstate := obj {[ "items" := Arr (EIssue <$> data) ]}.

(** [issueIdIncrement = 6], [issueListsNames = ['items', 'items2', 'items3']]
    and [test = new Array()]. *)
Definition initialStore : Store := mkStore 6 ["items"; "items2"; "items3"] [].

(** The module-level variables together with the state [useReducer] holds. *)
Definition world : Type := Store * jsstate.

(** [dispatch(action)]: the state becomes what the reducer returns.  When
    the reducer does not return, [useReducer] has no new state: the state
    stays as it is (the exception ends the rendering of [App], after which
    nothing is dispatched any more). *)
Definition dispatch (w : world) (a : action) : world :=
  let '(g', o) := dragReducer w.1 w.2 a in
  (g', match o with
       | Returned s' => s'
       | Thrown _ | RuntimeError => w.2
       end).

(** What the user does: ends a drag ([onDragEnd] with [result.reason],
    [result.source] and [result.destination], each a droppable id and an
    index), presses [Add Issue List], or presses an [Add Issue] button. *)
Inductive event :=
  | DragEnd (reason : string) (source : string * Z) (destination : option (string * Z))
  | ClickAddList
  | ClickAddIssue.

Definition handle (w : world) (e : event) : world :=
  match e with
  | DragEnd reason source destination =>
      (* if (result.reason === 'DROP') { if (!result.destination) return; dispatch(MOVE) } *)
      if bool_decide (reason = "DROP") then
        match destination with
        | None => w
        | Some d => dispatch w (MOVE source.1 d.1 source.2 d.2)
        end
      else w
  | ClickAddList =>
      (* issueListsNames.push('items' + issueIdIncrement++);
         dispatch({ type: 'UPDATELISTS', me: state }); *)
      let g := w.1 in
      let g' := mkStore (issueIdIncrement g + 1)
                  (issueListsNames g ++ ["items" +:+ toString (issueIdIncrement g)])
                  (test g) in
      dispatch (g', w.2) (UPDATELISTS w.2)
  | ClickAddIssue =>
      (* both actions are built from the state of the render the button
         belongs to *)
      let state := props w.2 in
      let w1 := dispatch w (UPDATE (get state "items") (get state "items2")
                              (get state "items3")) in
      dispatch w1 (ADDITEM "items" 0 (get state "items"))
  end.

(** The worlds the application can be in. *)
Inductive reachable : world → Prop :=
  | reachable_init : reachable (initialStore, initialState)
  | reachable_step w e : reachable w → reachable (handle w e).

(** ** Notions used by the properties *)

(** A MOVE is valid when [from] and [to] name lists of the state, [fromIndex]
    is an index into the [from] list and [toIndex] is a position at which the
    [to] list can take an element when the insertion happens, that is, after
    the removal: from 0 up to its length, which is one less than before when
    [from] and [to] are the same list.  These are the positions the moved
    element can end up at (see [valid_move_when_back_is_valid]). *)
Definition valid_move (m : gmap string cell) (from to : string)
    (fromIndex toIndex : Z) : Prop :=
  match m !! from, m !! to with
  | Some (Arr lf), Some (Arr lt) =>
      0 ≤ fromIndex < Z.of_nat (length lf) ∧
      0 ≤ toIndex ≤ (if decide (from = to) then Z.of_nat (length lf) - 1
                     else Z.of_nat (length lt))
  | _, _ => False
  end.

(** The sum over all lists of a measure of a list. *)
Definition sum_lists (f : list elem → nat) (m : gmap string cell) : nat :=
  map_fold (λ _ c n, f (or_empty c) + n)%nat 0%nat m.

Definition is_issue (e : elem) : bool :=
  match e with
  | EIssue _ => true
  | EUndef => false
  end.

(** The number of issues in a list, and the number of its entries. *)
Definition issues_in (l : list elem) : nat := length (filter is_issue l).

Definition issue_count (m : gmap string cell) : nat := sum_lists issues_in m.
Definition entry_count (m : gmap string cell) : nat := sum_lists length m.

(** The lists of a state with their names: the one-key objects of an array
    state, followed by the named properties. *)
Definition board_lists (s : jsstate) : list (string * cell) :=
  default [] (rows s) ++ map_to_list (props s).

Definition elem_ids (l : list elem) : list string :=
  omap (λ e, match e with EIssue i => Some (id i) | EUndef => None end) l.

(** The ids of all issues on the board. *)
Definition board_ids (s : jsstate) : list string :=
  board_lists s ≫= (λ p, elem_ids (or_empty p.2)).

(** The names of the lists of [s] that hold an issue with id [i]. *)
Definition lists_with_id (s : jsstate) (i : string) : list string :=
  (filter (λ p, bool_decide (i ∈ elem_ids (or_empty p.2))) (board_lists s)).*1.

(** Every id on the board is a value the counter has already passed. *)
Definition ids_bounded (w : world) : Prop :=
  ∀ i, i ∈ board_ids w.2 → ∃ n, n ≤ issueIdIncrement w.1 ∧ i = toString n.

(** The list names are pairwise distinct and none of them is a name that
    [Add Issue List] has yet to generate. *)
Definition names_fresh (g : Store) : Prop :=
  NoDup (issueListsNames g) ∧
  ∀ n, issueIdIncrement g ≤ n → "items" +:+ toString n ∉ issueListsNames g.

(** [k] presses of [Add Issue List] in a row. *)
Definition add_lists (k : nat) (w : world) : world :=
  Nat.iter k (λ w', handle w' ClickAddList) w.

(** The list [l] with [x] placed at position [n]. *)
Definition insert_at (n : nat) (x : elem) (l : list elem) : list elem :=
  take n l ++ x :: drop n l.

(** A board with the initial issues in [items] and an empty [items2], used to
    instantiate the statements below. *)
Definition two_lists : jsstate :=
  obj {[ "items" := Arr (EIssue <$> data); "items2" := Arr [] ]}.


(** The reading of C10 on the embedding: a MOVE whose [from] or [to] is
    not a key of the state does not fail. *)
Definition missing_list_never_fails : Prop :=
  ∀ (g : Store) (s : jsstate) (from to : string) (fromIndex toIndex : Z),
    props s !! from = None ∨ props s !! to = None →
    ∃ s', (dragReducer g s (MOVE from to fromIndex toIndex)).2 = Returned s'.

(** The reading of C3 on the embedding: what the reducer returns for a
    state and an action is the same whenever it is called, that is, whatever
    the module-level variables hold at the time of the call. *)
Definition same_result_for_same_input : Prop :=
  ∀ (g g' : Store) (s : jsstate) (a : action),
    (dragReducer g s a).2 = (dragReducer g' s a).2.

(** The list a returned state has under [name], for comparing outcomes. *)
Definition returned_list (o : outcome) (name : string) : cell :=
  match o with
  | Returned s => get (props s) name
  | Thrown _ | RuntimeError => Undef
  end.

(** The key under which the object ADDITEM returns holds [test[i]]. *)
Definition slot_name (i : nat) : string :=
  match i with
  | 0%nat => "items"
  | 1%nat => "items2"
  | _ => "items3"
  end.

(** Every issue of the array [c] has an id the counter has reached by [n]. *)
Definition cell_bounded (n : Z) (c : cell) : Prop :=
  ∀ x, EIssue x ∈ or_empty c → ∃ k, k ≤ n ∧ id x = toString k.

(** * Properties *)

Ltac by_evaluation := vm_compute; repeat split; try (intros; discriminate); done.

(** ** [splice] *)

Section splice.
Implicit Types (l : list elem) (x : elem) (i : Z).

Lemma splice_start_in_range (len : nat) i :
  0 ≤ i ≤ Z.of_nat len → splice_start len i = Z.to_nat i.
Proof.
  intros Hi. unfold splice_start.
  rewrite bool_decide_eq_false_2 by lia. f_equal. lia.
Qed.

Lemma splice_start_beyond (len : nat) i :
  Z.of_nat len ≤ i → splice_start len i = len.
Proof.
  intros Hi. unfold splice_start.
  rewrite bool_decide_eq_false_2 by lia. lia.
Qed.

Lemma splice_start_le (len : nat) i : (splice_start len i ≤ len)%nat.
Proof. unfold splice_start. case_bool_decide; lia. Qed.

(** Removing one element at a valid index. *)
Lemma splice_remove l i x :
  0 ≤ i → l !! Z.to_nat i = Some x →
  splice l i 1 [] = ([x], delete (Z.to_nat i) l).
Proof.
  intros Hi Hx. pose proof (lookup_lt_Some _ _ _ Hx) as Hlt.
  unfold splice. rewrite splice_start_in_range by lia.
  replace (Nat.min 1 (length l - Z.to_nat i)) with 1%nat by lia.
  rewrite delete_take_drop. f_equal.
  - rewrite <- (take_drop_middle l _ x Hx) at 1.
    rewrite drop_app_length' by (rewrite length_take; lia). done.
  - simpl. do 2 f_equal. lia.
Qed.

(** Removing at or past the end removes nothing. *)
Lemma splice_remove_beyond l i :
  Z.of_nat (length l) ≤ i → splice l i 1 [] = ([], l).
Proof.
  intros Hi. unfold splice. rewrite splice_start_beyond by done.
  rewrite Nat.sub_diag, Nat.min_0_r, Nat.add_0_r, take_0.
  simpl. by rewrite take_drop.
Qed.

(** Inserting one element: nothing is removed, the element lands at the
    clamped position. *)
Lemma splice_insert l i x :
  splice l i 0 [x] = ([], insert_at (splice_start (length l) i) x l).
Proof. unfold splice, insert_at. simpl. by rewrite Nat.add_0_r. Qed.

Lemma length_insert_at (n : nat) x l : length (insert_at n x l) = S (length l).
Proof.
  unfold insert_at. rewrite length_app. simpl.
  rewrite length_take, length_drop. lia.
Qed.

Lemma lookup_insert_at (n : nat) x l :
  (n ≤ length l)%nat → insert_at n x l !! n = Some x.
Proof.
  intros Hn. unfold insert_at.
  rewrite lookup_app_r by (rewrite length_take; lia).
  rewrite length_take, Nat.min_l, Nat.sub_diag by lia. done.
Qed.

(** Taking out what was just put in. *)
Lemma delete_insert_at (n : nat) x l :
  (n ≤ length l)%nat → delete n (insert_at n x l) = l.
Proof.
  intros Hn. rewrite delete_take_drop. unfold insert_at.
  rewrite take_app_length' by (rewrite length_take; lia).
  rewrite drop_app_ge by (rewrite length_take; lia).
  rewrite length_take, Nat.min_l by lia.
  replace (S n - n)%nat with 1%nat by lia. simpl.
  rewrite drop_0. apply take_drop.
Qed.

(** Putting back what was just taken out. *)
Lemma insert_at_delete (n : nat) x l :
  l !! n = Some x → insert_at n x (delete n l) = l.
Proof.
  intros Hx. pose proof (lookup_lt_Some _ _ _ Hx) as Hlt.
  unfold insert_at. rewrite delete_take_drop.
  rewrite take_app_length' by (rewrite length_take; lia).
  rewrite drop_app_length' by (rewrite length_take; lia).
  by apply take_drop_middle.
Qed.

Lemma issues_in_app l1 l2 :
  issues_in (l1 ++ l2) = (issues_in l1 + issues_in l2)%nat.
Proof. unfold issues_in. by rewrite filter_app, length_app. Qed.
End splice.

(** ** The MOVE case *)

Section move.
Implicit Types (m : gmap string cell) (from to : string) (l : list elem).

Lemma get_insert_eq m k c : get (<[k := c]> m) k = c.
Proof. unfold get. by rewrite lookup_insert_eq. Qed.

Lemma get_insert_ne m k k' c : k ≠ k' → get (<[k := c]> m) k' = get m k'.
Proof. intros. unfold get. by rewrite lookup_insert_ne. Qed.

Lemma get_Some m k c : m !! k = Some c → get m k = c.
Proof. unfold get. by intros ->. Qed.

Lemma get_None m k : m !! k = None → get m k = Undef.
Proof. unfold get. by intros ->. Qed.

(** The four statements of the case in one expression: the [from] list
    loses what [splice] removes, and the [to] list (the [from] list itself,
    already shortened, when the names coincide) takes the removed element
    at the clamped position. *)
Lemma move_unfold m from to fromIndex toIndex :
  move m from to fromIndex toIndex =
    let r := splice (or_empty (get m from)) fromIndex 1 [] in
    let lt := if decide (from = to) then r.2 else or_empty (get m to) in
    <[to := Arr (insert_at (splice_start (length lt) toIndex) (first r.1) lt)]>
      (<[from := Arr r.2]> m).
Proof.
  unfold move. cbv zeta.
  destruct (decide (from = to)) as [<-|Hne].
  - rewrite !get_insert_eq. cbn [or_empty].
    destruct (splice (or_empty (get m from)) fromIndex 1 []) as [gone lf].
    rewrite get_insert_eq. cbn [or_empty fst snd]. rewrite splice_insert.
    by rewrite !insert_insert_eq.
  - rewrite (get_insert_ne _ from to) by done.
    rewrite (get_insert_ne _ to from) by done.
    rewrite get_insert_eq. cbn [or_empty].
    destruct (splice (or_empty (get m from)) fromIndex 1 []) as [gone lf].
    rewrite (get_insert_ne _ from to) by done.
    rewrite get_insert_eq. cbn [or_empty fst snd]. rewrite splice_insert.
    apply map_eq. intros k. rewrite !lookup_insert.
    by repeat case_decide.
Qed.
End move.

(** ** Sums over the lists of a state *)

Section sum_lists.
Variable f : list elem → nat.
Hypothesis f_app : ∀ l1 l2, f (l1 ++ l2) = (f l1 + f l2)%nat.

Implicit Types (m : gmap string cell) (l : list elem).

Lemma sum_lists_insert m k c :
  sum_lists f (<[k := c]> m) = (f (or_empty c) + sum_lists f (delete k m))%nat.
Proof.
  rewrite <- insert_delete_eq. unfold sum_lists.
  rewrite map_fold_insert_L; [done| |apply lookup_delete_eq].
  intros. lia.
Qed.

Lemma sum_lists_lookup m k c :
  m !! k = Some c →
  sum_lists f m = (f (or_empty c) + sum_lists f (delete k m))%nat.
Proof.
  intros Hk. rewrite <- (insert_id m k c Hk) at 1. apply sum_lists_insert.
Qed.

Lemma measure_insert_at (n : nat) x l :
  f (insert_at n x l) = (f [x] + f l)%nat.
Proof.
  unfold insert_at. rewrite <- (take_drop n l) at 3.
  change (x :: drop n l) with ([x] ++ drop n l).
  rewrite !f_app. lia.
Qed.

Lemma measure_delete (n : nat) x l :
  l !! n = Some x → f l = (f [x] + f (delete n l))%nat.
Proof.
  intros Hx. rewrite <- (insert_at_delete n x l Hx) at 1.
  apply measure_insert_at.
Qed.

(** A MOVE that takes its element from an existing position leaves the
    sum as it was, wherever the element is put. *)
Lemma sum_lists_move m from to fromIndex toIndex lf :
  m !! from = Some (Arr lf) →
  0 ≤ fromIndex < Z.of_nat (length lf) →
  sum_lists f (move m from to fromIndex toIndex) = sum_lists f m.
Proof.
  intros Hf Hi.
  destruct (lookup_lt_is_Some_2 lf (Z.to_nat fromIndex)) as [x Hx]; [lia|].
  rewrite move_unfold. cbv zeta.
  rewrite (get_Some _ _ _ Hf). cbn [or_empty].
  rewrite (splice_remove _ _ x) by (done || lia). cbn [fst snd first].
  rewrite (sum_lists_lookup m from _ Hf). cbn [or_empty].
  rewrite (measure_delete _ x lf Hx).
  destruct (decide (from = to)) as [<-|Hne].
  - rewrite insert_insert_eq, sum_lists_insert. cbn [or_empty].
    rewrite measure_insert_at. lia.
  - rewrite sum_lists_insert. cbn [or_empty].
    rewrite measure_insert_at.
    rewrite delete_insert_ne by done.
    rewrite sum_lists_insert. cbn [or_empty].
    rewrite (delete_delete m from to).
    destruct (m !! to) as [c|] eqn:Ht.
    + rewrite (sum_lists_lookup (delete from m) to c)
        by (by rewrite lookup_delete_ne).
      unfold get. rewrite Ht. simpl. lia.
    + rewrite (delete_id (delete from m) to) by (by rewrite lookup_delete_ne).
      unfold get. rewrite Ht. simpl.
      assert (f [] = 0%nat) as ->; [|lia].
      pose proof (f_app [] []) as H0. simpl in H0. lia.
Qed.
End sum_lists.

(** ** MOVE on a state *)

Section move_state.
Implicit Types (g : Store) (s : jsstate) (m : gmap string cell)
  (from to : string) (l lf lt : list elem).

(** A name the state has as a property of its own is not read from the
    prototype, and neither is a name [Object.prototype] does not have. *)
Lemma inherited_own m k c : m !! k = Some c → inherited m k = false.
Proof.
  intros Hk. unfold inherited. rewrite (bool_decide_eq_false_2 (m !! k = None)).
  - apply andb_false_r.
  - by rewrite Hk.
Qed.

Lemma inherited_insert m k c k' :
  inherited m k' = false → inherited (<[k := c]> m) k' = false.
Proof.
  unfold inherited. intros [H|H]%andb_false_iff; apply andb_false_iff.
  - by left.
  - right. apply bool_decide_eq_false in H. apply bool_decide_eq_false.
    rewrite lookup_insert. case_decide; [done|]. done.
Qed.

Lemma inherited_items m (n : Z) : inherited m ("items" +:+ toString n) = false.
Proof.
  unfold inherited. rewrite bool_decide_eq_false_2; [done|].
  intros Hin. repeat (apply elem_of_cons in Hin as [Hin|Hin]; [discriminate|]).
  by apply elem_of_nil in Hin.
Qed.

Lemma inherited_move m from to fromIndex toIndex k :
  inherited m k = false →
  inherited (move m from to fromIndex toIndex) k = false.
Proof.
  intros Hk. rewrite move_unfold. cbv zeta. by do 2 apply inherited_insert.
Qed.

(** The MOVE case returns exactly when neither name is inherited. *)
Lemma dragReducer_MOVE g s from to fromIndex toIndex :
  inherited (props s) from = false → inherited (props s) to = false →
  dragReducer g s (MOVE from to fromIndex toIndex) =
    (g, Returned (mkState (rows s) (move (props s) from to fromIndex toIndex))).
Proof.
  intros Hfrom Hto. unfold dragReducer, produce, recipe.
  by rewrite Hfrom, Hto.
Qed.

Lemma dragReducer_MOVE_inherited g s from to fromIndex toIndex :
  inherited (props s) from || inherited (props s) to = true →
  dragReducer g s (MOVE from to fromIndex toIndex) = (g, RuntimeError).
Proof.
  intros Hinh. unfold dragReducer, produce, recipe. by rewrite Hinh.
Qed.

(** What a MOVE dispatched by a handler leaves. *)
Lemma dispatch_MOVE (w : world) from to fromIndex toIndex :
  dispatch w (MOVE from to fromIndex toIndex) =
    if inherited (props w.2) from || inherited (props w.2) to then w
    else (w.1, mkState (rows w.2) (move (props w.2) from to fromIndex toIndex)).
Proof.
  unfold dispatch, dragReducer, produce, recipe.
  destruct (inherited (props w.2) from || inherited (props w.2) to); [|done].
  by destruct w.
Qed.

Lemma valid_move_inv m from to fromIndex toIndex :
  valid_move m from to fromIndex toIndex →
  ∃ lf lt, m !! from = Some (Arr lf) ∧ m !! to = Some (Arr lt) ∧
    0 ≤ fromIndex < Z.of_nat (length lf) ∧
    0 ≤ toIndex ≤ (if decide (from = to) then Z.of_nat (length lf) - 1
                   else Z.of_nat (length lt)).
Proof.
  unfold valid_move. intros H.
  destruct (m !! from) as [[lf|]|]; try done.
  destruct (m !! to) as [[lt|]|]; try done.
  by exists lf, lt.
Qed.

(** The MOVE case when [fromIndex] is an index into the [from] list. *)
Lemma move_from_index m from to fromIndex toIndex lf x :
  m !! from = Some (Arr lf) → 0 ≤ fromIndex →
  lf !! Z.to_nat fromIndex = Some x →
  move m from to fromIndex toIndex =
    let lf' := delete (Z.to_nat fromIndex) lf in
    let lt := if decide (from = to) then lf' else or_empty (get m to) in
    <[to := Arr (insert_at (splice_start (length lt) toIndex) x lt)]>
      (<[from := Arr lf']> m).
Proof.
  intros Hf Hi Hx. rewrite move_unfold. cbv zeta.
  rewrite (get_Some _ _ _ Hf). cbn [or_empty].
  by rewrite (splice_remove _ _ x).
Qed.

(** The MOVE case for a valid action. *)
Lemma move_valid m from to fromIndex toIndex lf lt :
  m !! from = Some (Arr lf) → m !! to = Some (Arr lt) →
  0 ≤ fromIndex < Z.of_nat (length lf) →
  0 ≤ toIndex ≤ (if decide (from = to) then Z.of_nat (length lf) - 1
                 else Z.of_nat (length lt)) →
  ∃ x, lf !! Z.to_nat fromIndex = Some x ∧
    move m from to fromIndex toIndex =
      let lf' := delete (Z.to_nat fromIndex) lf in
      let lt0 := if decide (from = to) then lf' else lt in
      <[to := Arr (insert_at (Z.to_nat toIndex) x lt0)]> (<[from := Arr lf']> m).
Proof.
  intros Hf Ht Hi Hj.
  destruct (lookup_lt_is_Some_2 lf (Z.to_nat fromIndex)) as [x Hx]; [lia|].
  exists x. split; [done|].
  rewrite (move_from_index _ _ _ _ _ lf x) by (done || lia). cbv zeta.
  rewrite (get_Some _ _ _ Ht). cbn [or_empty].
  rewrite splice_start_in_range; [done|].
  destruct (decide (from = to)); [|lia].
  rewrite length_delete by eauto. lia.
Qed.
End move_state.

(** C1. For every state and every MOVE whose [from] names a list of the
    state and whose [fromIndex] is an index into that list, whatever
    [toIndex] is and whether [to] names a list of the state or a name the
    state neither has nor inherits, and so for every valid MOVE, the number
    of issues summed over all lists of the state the reducer returns equals
    the number in the state it was given.  The same holds of the number of
    array entries; the one-key objects of an array state are passed on as
    they are, and the module-level variables are not touched.  (The one
    other case is a [to] the state does not have but inherits: the reducer
    then throws and returns no state.) *)
Theorem move_preserves_issue_count (g : Store) (s : jsstate)
    (from to : string) (fromIndex toIndex : Z) (lf : list elem) :
  props s !! from = Some (Arr lf) →
  0 ≤ fromIndex < Z.of_nat (length lf) →
  if inherited (props s) to
  then dragReducer g s (MOVE from to fromIndex toIndex) = (g, RuntimeError)
  else ∃ s', dragReducer g s (MOVE from to fromIndex toIndex) = (g, Returned s') ∧
             issue_count (props s') = issue_count (props s) ∧
             entry_count (props s') = entry_count (props s) ∧
             rows s' = rows s.
Proof.
  intros Hf Hi.
  destruct (inherited (props s) to) eqn:Hto.
  { apply dragReducer_MOVE_inherited. rewrite Hto. apply orb_true_r. }
  eexists. split; [apply dragReducer_MOVE; [by eapply inherited_own|done]|].
  cbn [props rows].
  split_and!; [| |done].
  - by apply (sum_lists_move issues_in issues_in_app _ _ _ _ _ lf).
  - by apply (sum_lists_move length (@length_app elem) _ _ _ _ _ lf).
Qed.

Lemma move_preserves_issue_count_witness :
  props two_lists !! "items" = Some (Arr (EIssue <$> data)) ∧
  0 ≤ 1 < Z.of_nat (length (EIssue <$> data)) ∧
  ∃ s', dragReducer initialStore two_lists (MOVE "items" "items2" 1 0)
          = (initialStore, Returned s') ∧
        issue_count (props s') = issue_count (props two_lists) ∧
        entry_count (props s') = entry_count (props two_lists) ∧
        rows s' = rows two_lists.
Proof.
  assert (props two_lists !! "items" = Some (Arr (EIssue <$> data))) as Hf
    by reflexivity.
  assert (0 ≤ 1 < Z.of_nat (length (EIssue <$> data))) as Hi by (simpl; lia).
  split; [exact Hf|]. split; [exact Hi|].
  exact (move_preserves_issue_count initialStore two_lists "items" "items2" 1 0
           _ Hf Hi).
Defined.

Lemma move_postcondition_general (g : Store) (s : jsstate)
    (from to : string) (fromIndex toIndex : Z) (lf lt : list elem) :
  props s !! from = Some (Arr lf) → props s !! to = Some (Arr lt) →
  0 ≤ fromIndex < Z.of_nat (length lf) →
  ∃ x s' lf' lt' (p : nat),
    lf !! Z.to_nat fromIndex = Some x ∧
    dragReducer g s (MOVE from to fromIndex toIndex) = (g, Returned s') ∧
    props s' !! from = Some (Arr lf') ∧ props s' !! to = Some (Arr lt') ∧
    (from ≠ to → length lt' = S (length lt) ∧ S (length lf') = length lf) ∧
    (from = to → length lt' = length lt) ∧
    lt' !! p = Some x ∧
    (valid_move (props s) from to fromIndex toIndex → p = Z.to_nat toIndex).
Proof.
  intros Hf Ht Hi.
  destruct (lookup_lt_is_Some_2 lf (Z.to_nat fromIndex)) as [x Hx]; [lia|].
  pose proof (move_from_index (props s) from to fromIndex toIndex lf x Hf
                (proj1 Hi) Hx) as Hm.
  cbv zeta in Hm. rewrite (get_Some _ _ _ Ht) in Hm. cbn [or_empty] in Hm.
  set (lf' := delete (Z.to_nat fromIndex) lf) in *.
  assert (length lf' = (length lf - 1)%nat) as Hlen
    by (apply length_delete; eauto).
  set (lt0 := if decide (from = to) then lf' else lt) in *.
  set (p := splice_start (length lt0) toIndex) in *.
  assert (valid_move (props s) from to fromIndex toIndex → p = Z.to_nat toIndex)
    as Hp.
  { intros (lf1 & lt1 & Hf1 & Ht1 & _ & Hj)%valid_move_inv.
    assert (lf1 = lf) as -> by congruence.
    assert (lt1 = lt) as -> by congruence.
    subst p lt0. apply splice_start_in_range.
    destruct (decide (from = to)); lia. }
  exists x, (mkState (rows s) (move (props s) from to fromIndex toIndex)),
    (if decide (from = to) then insert_at p x lt0 else lf'), (insert_at p x lt0), p.
  rewrite dragReducer_MOVE by (by eapply inherited_own). rewrite Hm. cbn [props].
  split_and!; try done.
  - rewrite lookup_insert. destruct (decide (from = to)) as [->|].
    + by rewrite decide_True.
    + rewrite decide_False by done. apply lookup_insert_eq.
  - apply lookup_insert_eq.
  - intros Hne. subst lt0. rewrite length_insert_at.
    rewrite !decide_False by done. lia.
  - intros Heq. assert (lt = lf) as -> by congruence.
    subst lt0. rewrite length_insert_at. rewrite decide_True by done. lia.
  - apply lookup_insert_at. apply splice_start_le.
Qed.

Lemma move_scenario (g : Store) (A B : string) (x y : elem) :
  A ≠ B →
  dragReducer g (obj {[ A := Arr [x; y]; B := Arr [] ]}) (MOVE A B 0 0)
    = (g, Returned (obj {[ A := Arr [y]; B := Arr [x] ]})).
Proof.
  intros Hne. rewrite dragReducer_MOVE; cbn [rows props obj].
  2: { eapply inherited_own, lookup_insert_eq. }
  2: { eapply inherited_own. rewrite lookup_insert_ne by done.
       apply lookup_singleton_eq. }
  do 2 f_equal. unfold obj. f_equal.
  rewrite (move_from_index _ _ _ _ _ [x; y] x); [|by rewrite lookup_insert_eq|done..].
  cbv zeta. rewrite decide_False by done.
  rewrite get_insert_ne by done. unfold get. rewrite lookup_singleton_eq.
  apply map_eq. intros k. rewrite !lookup_insert, !lookup_singleton.
  repeat case_decide; done || congruence.
Qed.

(** C2. For every state and every MOVE between lists of the state whose
    [fromIndex] is an index into the [from] list, in the state the reducer
    returns the [to] list is one longer (as long as before when [from] and
    [to] are the same list), the [from] list is one shorter (unless they are
    the same list), and the [to] list holds, at a position [p], the very
    element that was at [fromIndex] of the [from] list, id and content
    included; [p] is [toIndex] when the MOVE is valid.  In particular,
    MOVE(from = A, to = B, 0, 0) on [{A: [x, y], B: []}] gives
    [{A: [y], B: [x]}]. *)
Theorem move_postcondition :
  (∀ (g : Store) (s : jsstate) (from to : string) (fromIndex toIndex : Z)
     (lf lt : list elem),
     props s !! from = Some (Arr lf) → props s !! to = Some (Arr lt) →
     0 ≤ fromIndex < Z.of_nat (length lf) →
     ∃ x s' lf' lt' (p : nat),
       lf !! Z.to_nat fromIndex = Some x ∧
       dragReducer g s (MOVE from to fromIndex toIndex) = (g, Returned s') ∧
       props s' !! from = Some (Arr lf') ∧ props s' !! to = Some (Arr lt') ∧
       (from ≠ to → length lt' = S (length lt) ∧ S (length lf') = length lf) ∧
       (from = to → length lt' = length lt) ∧
       lt' !! p = Some x ∧
       (valid_move (props s) from to fromIndex toIndex → p = Z.to_nat toIndex)) ∧
  (∀ (g : Store) (A B : string) (x y : elem),
     A ≠ B →
     dragReducer g (obj {[ A := Arr [x; y]; B := Arr [] ]}) (MOVE A B 0 0)
       = (g, Returned (obj {[ A := Arr [y]; B := Arr [x] ]}))).
Proof. split; [apply move_postcondition_general | apply move_scenario]. Qed.

Lemma move_postcondition_witness :
  (props two_lists !! "items" = Some (Arr (EIssue <$> data)) ∧
   props two_lists !! "items2" = Some (Arr []) ∧
   0 ≤ 1 < Z.of_nat (length (EIssue <$> data)) ∧
   ∃ x s' lf' lt' (p : nat),
     (EIssue <$> data) !! Z.to_nat 1 = Some x ∧
     dragReducer initialStore two_lists (MOVE "items" "items2" 1 0)
       = (initialStore, Returned s') ∧
     props s' !! "items" = Some (Arr lf') ∧ props s' !! "items2" = Some (Arr lt') ∧
     ("items" ≠ "items2" →
      length lt' = S (length (@nil elem)) ∧
      S (length lf') = length (EIssue <$> data)) ∧
     ("items" = "items2" → length lt' = length (@nil elem)) ∧
     lt' !! p = Some x ∧
     (valid_move (props two_lists) "items" "items2" 1 0 → p = Z.to_nat 0)) ∧
  ("A" ≠ "B" ∧
   dragReducer initialStore
       (obj {[ "A" := Arr [EIssue (mkIssue "1" "x"); EIssue (mkIssue "2" "y")];
               "B" := Arr [] ]})
       (MOVE "A" "B" 0 0)
     = (initialStore,
        Returned (obj {[ "A" := Arr [EIssue (mkIssue "2" "y")];
                         "B" := Arr [EIssue (mkIssue "1" "x")] ]}))).
Proof.
  assert (props two_lists !! "items" = Some (Arr (EIssue <$> data))) as Hf
    by reflexivity.
  assert (props two_lists !! "items2" = Some (Arr [])) as Ht by reflexivity.
  assert (0 ≤ 1 < Z.of_nat (length (EIssue <$> data))) as Hi by (simpl; lia).
  assert ("A" ≠ "B") as Hne by discriminate.
  split.
  - split; [exact Hf|]. split; [exact Ht|]. split; [exact Hi|].
    exact (proj1 move_postcondition initialStore two_lists "items" "items2" 1 0
             _ _ Hf Ht Hi).
  - split; [exact Hne|].
    exact (proj2 move_postcondition initialStore "A" "B" _ _ Hne).
Defined.

(** The bound [valid_move] puts on [toIndex] is the one under which the
    moved element can be taken back from [toIndex]: a MOVE between lists of
    the state, with [fromIndex] an index into the [from] list and [toIndex]
    not negative, is valid as soon as [toIndex] is an index into the [to]
    list of the result. *)
Lemma valid_move_when_back_is_valid (m : gmap string cell) (from to : string)
    (fromIndex toIndex : Z) (lf lt lt' : list elem) :
  m !! from = Some (Arr lf) → m !! to = Some (Arr lt) →
  0 ≤ fromIndex < Z.of_nat (length lf) →
  move m from to fromIndex toIndex !! to = Some (Arr lt') →
  0 ≤ toIndex < Z.of_nat (length lt') →
  valid_move m from to fromIndex toIndex.
Proof.
  intros Hf Ht Hi Hm Hj.
  destruct (lookup_lt_is_Some_2 lf (Z.to_nat fromIndex)) as [x Hx]; [lia|].
  rewrite (move_from_index m from to fromIndex toIndex lf x) in Hm by (done || lia).
  cbv zeta in Hm. rewrite lookup_insert_eq in Hm.
  injection Hm as <-. rewrite length_insert_at in Hj.
  unfold valid_move. rewrite Hf, Ht. split; [done|].
  destruct (decide (from = to)).
  - rewrite length_delete in Hj by eauto. lia.
  - rewrite (get_Some _ _ _ Ht) in Hj. cbn [or_empty] in Hj. lia.
Qed.

(** C6. For every state and every valid MOVE(from, to, fromIndex, toIndex),
    that MOVE followed by MOVE(to, from, toIndex, fromIndex) gives back the
    state it started from; the second MOVE is itself valid. *)
Theorem move_round_trip (g : Store) (s : jsstate)
    (from to : string) (fromIndex toIndex : Z) :
  valid_move (props s) from to fromIndex toIndex →
  ∃ s1, dragReducer g s (MOVE from to fromIndex toIndex) = (g, Returned s1) ∧
        valid_move (props s1) to from toIndex fromIndex ∧
        dragReducer g s1 (MOVE to from toIndex fromIndex) = (g, Returned s).
Proof.
  intros (lf & lt & Hf & Ht & Hi & Hj)%valid_move_inv.
  destruct (move_valid _ _ _ _ _ _ _ Hf Ht Hi Hj) as (x & Hx & Hm).
  pose proof (inherited_own _ _ _ Hf) as Hfrom.
  pose proof (inherited_own _ _ _ Ht) as Hto.
  cbv zeta in Hm. eexists. split; [by apply dragReducer_MOVE|].
  cbn [props]. rewrite dragReducer_MOVE by (by apply inherited_move).
  cbn [props rows]. rewrite Hm.
  set (i := Z.to_nat fromIndex) in *. set (j := Z.to_nat toIndex) in *.
  set (lf' := delete i lf) in *.
  assert (length lf' = (length lf - 1)%nat) as Hlen
    by (apply length_delete; eauto).
  assert (insert_at i x lf' = lf) as Hback by (by apply insert_at_delete).
  destruct s as [r m]. cbn [props rows] in *.
  destruct (decide (from = to)) as [<-|Hne].
  - (* a reorder within one list *)
    rewrite insert_insert_eq.
    set (m1 := <[from := Arr (insert_at j x lf')]> m).
    assert (m1 !! from = Some (Arr (insert_at j x lf'))) as H1
      by apply lookup_insert_eq.
    split.
    + unfold valid_move. rewrite H1, length_insert_at.
      rewrite decide_True by done. lia.
    + rewrite (move_from_index m1 from from toIndex fromIndex _ x H1);
        [|lia|apply lookup_insert_at; lia].
      cbv zeta. fold j. rewrite decide_True by done.
      rewrite delete_insert_at by lia.
      rewrite splice_start_in_range by lia. fold i. rewrite Hback.
      subst m1. rewrite !insert_insert_eq. by rewrite insert_id.
  - (* a move between two lists *)
    set (m1 := <[to := Arr (insert_at j x lt)]> (<[from := Arr lf']> m)).
    assert (m1 !! to = Some (Arr (insert_at j x lt))) as Ht1
      by apply lookup_insert_eq.
    assert (m1 !! from = Some (Arr lf')) as Hf1.
    { subst m1. rewrite lookup_insert_ne by done. apply lookup_insert_eq. }
    split.
    + unfold valid_move. rewrite Ht1, Hf1, length_insert_at.
      rewrite decide_False by done. lia.
    + rewrite (move_from_index m1 to from toIndex fromIndex _ x Ht1);
        [|lia|apply lookup_insert_at; lia].
      cbv zeta. fold j. rewrite decide_False by done.
      rewrite delete_insert_at by lia.
      rewrite (get_Some _ _ _ Hf1). cbn [or_empty].
      rewrite splice_start_in_range by lia. fold i. rewrite Hback.
      do 3 f_equal. subst m1. apply map_eq. intros k. rewrite !lookup_insert.
      repeat case_decide; congruence.
Qed.

Lemma move_round_trip_witness :
  valid_move (props two_lists) "items" "items2" 1 0 ∧
  ∃ s1, dragReducer initialStore two_lists (MOVE "items" "items2" 1 0)
          = (initialStore, Returned s1) ∧
        valid_move (props s1) "items2" "items" 0 1 ∧
        dragReducer initialStore s1 (MOVE "items2" "items" 0 1)
          = (initialStore, Returned two_lists).
Proof.
  assert (valid_move (props two_lists) "items" "items2" 1 0) as Hv
    by by_evaluation.
  split; [exact Hv|].
  exact (move_round_trip initialStore two_lists "items" "items2" 1 0 Hv).
Defined.

(** The bound on [toIndex] in [valid_move] is the length of the list at the
    time of the insertion.  One position further, in a reorder within one
    list, [splice] clamps the insertion to the end, and the MOVE back then
    finds nothing at that index: it inserts [undefined]. *)
Example move_back_past_the_end :
  let s1 := (dispatch (initialStore, initialState) (MOVE "items" "items" 0 4)).2 in
  let s2 := (dispatch (initialStore, s1) (MOVE "items" "items" 4 0)).2 in
  get (props s2) "items" =
    Arr (EUndef :: or_empty (get (props s1) "items")) ∧
  s2 ≠ initialState.
Proof.
  split; [by vm_compute|].
  intros H. apply (f_equal (λ s, entry_count (props s))) in H.
  vm_compute in H. discriminate.
Qed.

(** C7. For every state, every list [L] of it and every index [i] into
    that list, MOVE with [from = to = L] and [fromIndex = toIndex = i]
    returns the state it was given. *)
Theorem move_same_place (g : Store) (s : jsstate) (L : string)
    (l : list elem) (i : Z) :
  props s !! L = Some (Arr l) →
  0 ≤ i < Z.of_nat (length l) →
  dragReducer g s (MOVE L L i i) = (g, Returned s).
Proof.
  intros HL Hi.
  destruct (lookup_lt_is_Some_2 l (Z.to_nat i)) as [x Hx]; [lia|].
  rewrite dragReducer_MOVE by (by eapply inherited_own).
  rewrite (move_from_index _ _ _ _ _ l x HL) by (lia || done).
  cbv zeta. rewrite decide_True by done.
  rewrite splice_start_in_range
    by (rewrite length_delete by eauto; lia).
  rewrite insert_at_delete by done.
  rewrite insert_insert_eq, insert_id by done.
  by destruct s.
Qed.

Lemma move_same_place_witness :
  props initialState !! "items" = Some (Arr (EIssue <$> data)) ∧
  0 ≤ 2 < Z.of_nat (length (EIssue <$> data)) ∧
  dragReducer initialStore initialState (MOVE "items" "items" 2 2)
    = (initialStore, Returned initialState).
Proof.
  assert (props initialState !! "items" = Some (Arr (EIssue <$> data))) as HL
    by reflexivity.
  assert (0 ≤ 2 < Z.of_nat (length (EIssue <$> data))) as Hi
    by (simpl; lia).
  split; [exact HL|]. split; [exact Hi|].
  exact (move_same_place initialStore initialState "items" _ 2 HL Hi).
Defined.

Lemma move_other_lists (m : gmap string cell) (from to : string)
    (fromIndex toIndex : Z) (k : string) :
  k ≠ from → k ≠ to →
  move m from to fromIndex toIndex !! k = m !! k.
Proof.
  intros. rewrite move_unfold. cbv zeta.
  by rewrite !lookup_insert_ne.
Qed.

Lemma move_same_as_initialised (m : gmap string cell) (from to : string)
    (fromIndex toIndex : Z) (k : string) :
  get m k = Undef → k = from ∨ k = to →
  move (<[k := Arr []]> m) from to fromIndex toIndex
    = move m from to fromIndex toIndex.
Proof.
  intros Hk Hor. rewrite !move_unfold. cbv zeta.
  assert (∀ k', or_empty (get (<[k := Arr []]> m) k') = or_empty (get m k')) as Hget.
  { intros k'. destruct (decide (k = k')) as [<-|].
    - by rewrite get_insert_eq, Hk.
    - by rewrite get_insert_ne. }
  rewrite !Hget.
  apply map_eq. intros k'. rewrite !lookup_insert.
  repeat case_decide; try done. destruct Hor; congruence.
Qed.

(** C10, refuted as stated: [toString] is not a key of the initial state,
    but [state['toString']] is the method every object inherits; [|| []]
    keeps it, no list is created, and [.splice] is no function of it.  The
    MOVE throws, whether the name is [from] or [to]. *)
Lemma move_inherited_name_is_no_list :
  props initialState !! "toString" = None ∧
  dragReducer initialStore initialState (MOVE "toString" "items" 0 0)
    = (initialStore, RuntimeError) ∧
  dragReducer initialStore initialState (MOVE "items" "toString" 0 0)
    = (initialStore, RuntimeError) ∧
  ¬ missing_list_never_fails.
Proof.
  assert (dragReducer initialStore initialState (MOVE "toString" "items" 0 0)
          = (initialStore, RuntimeError)) as Heq by by vm_compute.
  split_and!; [done|exact Heq|by vm_compute|].
  intros Hnever.
  destruct (Hnever initialStore initialState "toString" "items" 0 0) as [s' Hs'].
  - by left.
  - rewrite Heq in Hs'. discriminate.
Qed.

(** C10 as the code has it.  On a state that is a mapping, a MOVE whose
    [from] or [to] is a name the state neither has nor inherits does not
    fail.  The missing list (or one that is [undefined]) is taken to be the
    empty list: the result is the one the reducer gives on the state in
    which that list is present and empty.  In the result both [from] and
    [to] hold arrays, and every other list is as it was.  A MOVE whose
    [from] or [to] is a name the state does not have but inherits from
    [Object.prototype] throws, and no state is returned. *)
Theorem move_missing_list :
  (∀ (g : Store) (s : jsstate) (from to : string) (fromIndex toIndex : Z),
     rows s = None →
     inherited (props s) from = false → inherited (props s) to = false →
     ∃ s', dragReducer g s (MOVE from to fromIndex toIndex) = (g, Returned s') ∧
       (∀ k, get (props s) k = Undef → k = from ∨ k = to →
          dragReducer g (mkState (rows s) (<[k := Arr []]> (props s)))
            (MOVE from to fromIndex toIndex) = (g, Returned s')) ∧
       (∃ lf lt, props s' !! from = Some (Arr lf) ∧ props s' !! to = Some (Arr lt)) ∧
       (∀ k, k ≠ from → k ≠ to → props s' !! k = props s !! k) ∧
       rows s' = None) ∧
  (∀ (g : Store) (s : jsstate) (from to : string) (fromIndex toIndex : Z),
     rows s = None →
     inherited (props s) from || inherited (props s) to = true →
     dragReducer g s (MOVE from to fromIndex toIndex) = (g, RuntimeError)).
Proof.
  split.
  - intros g s from to fromIndex toIndex Hrows Hfrom Hto.
    eexists. split; [by apply dragReducer_MOVE|]. cbn [props rows].
    split_and!; [| |by apply move_other_lists|done].
    + intros k Hk Hor.
      rewrite dragReducer_MOVE by (by apply inherited_insert).
      cbn [props rows]. by rewrite move_same_as_initialised.
    + rewrite move_unfold. cbv zeta.
      destruct (decide (from = to)) as [<-|Hne].
      * eexists _, _. split; apply lookup_insert_eq.
      * eexists _, _. split; [|apply lookup_insert_eq].
        rewrite lookup_insert_ne by done. apply lookup_insert_eq.
  - intros g s from to fromIndex toIndex _ Hinh.
    by apply dragReducer_MOVE_inherited.
Qed.

Lemma move_missing_list_witness :
  rows initialState = None ∧
  inherited (props initialState) "items0" = false ∧
  inherited (props initialState) "items2" = false ∧
  ∃ s', dragReducer initialStore initialState (MOVE "items0" "items2" 0 0)
          = (initialStore, Returned s') ∧
    (∀ k, get (props initialState) k = Undef → k = "items0" ∨ k = "items2" →
       dragReducer initialStore
         (mkState (rows initialState) (<[k := Arr []]> (props initialState)))
         (MOVE "items0" "items2" 0 0) = (initialStore, Returned s')) ∧
    (∃ lf lt, props s' !! "items0" = Some (Arr lf) ∧
              props s' !! "items2" = Some (Arr lt)) ∧
    (∀ k, k ≠ "items0" → k ≠ "items2" → props s' !! k = props initialState !! k) ∧
    rows s' = None.
Proof.
  assert (rows initialState = None) as Hrows by reflexivity.
  assert (inherited (props initialState) "items0" = false) as Hfrom by reflexivity.
  assert (inherited (props initialState) "items2" = false) as Hto by reflexivity.
  split; [exact Hrows|]. split; [exact Hfrom|]. split; [exact Hto|].
  exact (proj1 move_missing_list initialStore initialState "items0" "items2" 0 0
           Hrows Hfrom Hto).
Defined.

(** ** Indices out of range *)





(** ** The array [test] *)

Section test_array.
Implicit Types (t : list cell) (i j : nat) (v : cell).

Lemma test_get_set_eq t i v : test_get (test_set t i v) i = v.
Proof.
  unfold test_get, test_set. case_bool_decide.
  - by rewrite list_lookup_insert_eq.
  - rewrite lookup_app_r by lia.
    rewrite lookup_app_r by (rewrite length_replicate; lia).
    rewrite length_replicate, Nat.sub_diag. done.
Qed.

Lemma test_get_set_ne t i j v :
  i ≠ j → test_get (test_set t i v) j = test_get t j.
Proof.
  intros Hne. unfold test_get, test_set. case_bool_decide.
  - by rewrite list_lookup_insert_ne.
  - destruct (decide (j < length t)%nat).
    + by rewrite lookup_app_l.
    + rewrite (lookup_ge_None_2 t j) by lia.
      rewrite lookup_app_r by lia.
      destruct (decide (j - length t < i - length t)%nat).
      * rewrite lookup_app_l by (rewrite length_replicate; lia).
        by rewrite lookup_replicate_2.
      * rewrite lookup_app_r by (rewrite length_replicate; lia).
        rewrite length_replicate.
        destruct (j - length t - (i - length t))%nat eqn:E; [lia|done].
Qed.

Lemma length_test_set t i v : (i < length (test_set t i v))%nat.
Proof.
  unfold test_set. case_bool_decide.
  - by rewrite length_insert.
  - rewrite !length_app, length_replicate. simpl. lia.
Qed.

(** A second assignment to a slot overwrites the first. *)
Lemma test_set_set t i v v' :
  test_set (test_set t i v) i v' = test_set t i v'.
Proof.
  unfold test_set at 1.
  rewrite bool_decide_eq_true_2 by apply length_test_set.
  unfold test_set. case_bool_decide.
  - by rewrite list_insert_insert_eq.
  - rewrite insert_app_r_alt by lia.
    rewrite insert_app_r_alt by (rewrite length_replicate; lia).
    rewrite length_replicate, Nat.sub_diag. done.
Qed.
End test_array.

(** ** ADDITEM, UPDATE and UPDATELISTS *)

Section returning_cases.
Implicit Types (g : Store) (s : jsstate) (t : list cell).

(** The store ADDITEM leaves behind and the object it returns. *)
Lemma dragReducer_ADDITEM g s pass myIndex myData :
  let n := issueIdIncrement g + 1 in
  let t := test_set (test g) myIndex
             (Arr (or_empty myData ++ [EIssue (new_issue n)])) in
  dragReducer g s (ADDITEM pass myIndex myData) =
    (mkStore n (issueListsNames g) t,
     Returned (obj (<["items3" := test_get t 2]>
                   (<["items2" := test_get t 1]>
                   (<["items" := test_get t 0]> ∅))))).
Proof.
  cbv zeta. unfold dragReducer, produce, recipe. cbv zeta.
  assert (match myData with
          | Arr l => if bool_decide (0 < length l)%nat then l else []
          | Undef => []
          end = or_empty myData) as ->.
  { destruct myData as [[|x l]|]; try done. }
  rewrite !test_get_set_eq. cbn [or_empty app].
  by rewrite !test_set_set.
Qed.

Lemma dragReducer_UPDATE g s myData1 myData2 myData3 :
  dragReducer g s (UPDATE myData1 myData2 myData3) =
    (mkStore (issueIdIncrement g) (issueListsNames g)
       (test_set (test_set (test_set (test g) 0 myData1) 1 myData2) 2 myData3),
     Returned (arr_of_rows ((λ item, (item, myData1)) <$> issueListsNames g))).
Proof.
  unfold dragReducer, produce, recipe. cbv zeta.
  rewrite test_get_set_ne, test_get_set_ne, test_get_set_eq by done.
  done.
Qed.

Lemma dragReducer_UPDATELISTS g s me :
  dragReducer g s (UPDATELISTS me) =
    (g, Returned (arr_of_rows
           ((λ item, (item, get (props s) item)) <$> issueListsNames g))).
Proof. reflexivity. Qed.

Lemma toString_inj n1 n2 : toString n1 = toString n2 → n1 = n2.
Proof. unfold toString. apply (inj pretty). Qed.

Lemma new_issue_inj n1 n2 : new_issue n1 = new_issue n2 → n1 = n2.
Proof. intros [= H _]. by apply toString_inj. Qed.
End returning_cases.

(** ** Determinism *)

(** C3, refuted as stated: ADDITEM applied twice to the initial state with
    the same action gives two different results, the second call finding the
    counter where the first one left it. *)
Lemma additem_twice_differs :
  let a := ADDITEM "items" 0 (Arr (EIssue <$> data)) in
  let r1 := dragReducer initialStore initialState a in
  let r2 := dragReducer r1.1 initialState a in
  returned_list r1.2 "items" = Arr ((EIssue <$> data) ++ [EIssue (mkIssue "7" "Test7")]) ∧
  returned_list r2.2 "items" = Arr ((EIssue <$> data) ++ [EIssue (mkIssue "8" "Test8")]) ∧
  r1.2 ≠ r2.2 ∧
  ¬ same_result_for_same_input.
Proof.
  cbv zeta.
  set (a := ADDITEM "items" 0 (Arr (EIssue <$> data))).
  assert ((dragReducer initialStore initialState a).2
          ≠ (dragReducer (dragReducer initialStore initialState a).1 initialState a).2)
    as Hne.
  { intros H. apply (f_equal (λ o, returned_list o "items")) in H.
    vm_compute in H. discriminate. }
  split_and!; [by vm_compute|by vm_compute|exact Hne|].
  intros Hsame. apply Hne. apply Hsame.
Qed.

Lemma additem_result_at (g : Store) (s : jsstate) (pass : string)
    (myIndex : nat) (myData : cell) :
  (myIndex < 3)%nat →
  returned_list (dragReducer g s (ADDITEM pass myIndex myData)).2 (slot_name myIndex)
    = Arr (or_empty myData ++ [EIssue (new_issue (issueIdIncrement g + 1))]).
Proof.
  intros Hi. rewrite dragReducer_ADDITEM. cbv zeta. cbn [snd returned_list props obj].
  destruct myIndex as [|[|[|?]]]; [| | |lia]; cbn [slot_name].
  - rewrite !get_insert_ne, get_insert_eq by done. apply test_get_set_eq.
  - rewrite get_insert_ne, get_insert_eq by done. apply test_get_set_eq.
  - rewrite get_insert_eq. apply test_get_set_eq.
Qed.

(** C3 as the code has it.  What the reducer returns is determined by the
    state, the action and the module-level variables together.  MOVE reads
    and writes none of the variables, so it gives the same result for the
    same state and action.  UPDATELISTS reads [issueListsNames] and writes
    nothing.  UPDATE reads [issueListsNames], ignores the state and writes
    [test].  ADDITEM reads [issueIdIncrement] and [test], ignores the state,
    and leaves the counter one higher, so that the same state and action
    dispatched again give an issue with the next id.  Neither of the two
    changes an array it finds: ADDITEM puts a new array, made of [myData]
    and the new issue, into [test[myIndex]] and leaves the other slots
    alone; UPDATE puts the three arrays it is given into [test[0..2]] as
    they are. *)
Theorem reducer_depends_on_module_variables :
  (∀ (g g' : Store) (s : jsstate) (from to : string) (fromIndex toIndex : Z),
     let a := MOVE from to fromIndex toIndex in
     (dragReducer g s a).1 = g ∧
     (dragReducer g s a).2 = (dragReducer g' s a).2) ∧
  (∀ (g g' : Store) (s me : jsstate),
     issueListsNames g = issueListsNames g' →
     (dragReducer g s (UPDATELISTS me)).1 = g ∧
     (dragReducer g s (UPDATELISTS me)).2 = (dragReducer g' s (UPDATELISTS me)).2) ∧
  (∀ (g g' : Store) (s s' : jsstate) (myData1 myData2 myData3 : cell),
     let a := UPDATE myData1 myData2 myData3 in
     issueListsNames g = issueListsNames g' →
     (dragReducer g s a).2 = (dragReducer g' s' a).2) ∧
  (∀ (g g' : Store) (s s' : jsstate) (pass : string) (myIndex : nat) (myData : cell),
     let a := ADDITEM pass myIndex myData in
     issueIdIncrement g = issueIdIncrement g' → test g = test g' →
     (dragReducer g s a).2 = (dragReducer g' s' a).2) ∧
  (∀ (g : Store) (s : jsstate) (pass : string) (myIndex : nat) (myData : cell),
     let a := ADDITEM pass myIndex myData in
     issueIdIncrement (dragReducer g s a).1 = issueIdIncrement g + 1 ∧
     ((myIndex < 3)%nat →
      (dragReducer g s a).2 ≠ (dragReducer (dragReducer g s a).1 s a).2)) ∧
  (∀ (g : Store) (s : jsstate) (pass : string) (myIndex : nat) (myData : cell),
     let t' := test (dragReducer g s (ADDITEM pass myIndex myData)).1 in
     test_get t' myIndex
       = Arr (or_empty myData ++ [EIssue (new_issue (issueIdIncrement g + 1))]) ∧
     ∀ j, j ≠ myIndex → test_get t' j = test_get (test g) j) ∧
  (∀ (g : Store) (s : jsstate) (myData1 myData2 myData3 : cell),
     let t' := test (dragReducer g s (UPDATE myData1 myData2 myData3)).1 in
     test_get t' 0 = myData1 ∧ test_get t' 1 = myData2 ∧ test_get t' 2 = myData3 ∧
     ∀ j, (3 ≤ j)%nat → test_get t' j = test_get (test g) j).
Proof.
  split_and!.
  - intros g g' s from to fromIndex toIndex a. subst a.
    unfold dragReducer, produce, recipe.
    by destruct (inherited (props s) from || inherited (props s) to).
  - intros g g' s me Hn. rewrite !dragReducer_UPDATELISTS. cbn [fst snd].
    by rewrite Hn.
  - intros g g' s s' d1 d2 d3 a Hn. subst a. rewrite !dragReducer_UPDATE.
    cbn [snd]. by rewrite Hn.
  - intros g g' s s' pass i d a Hc Ht. subst a. rewrite !dragReducer_ADDITEM.
    cbv zeta. cbn [snd]. by rewrite Hc, Ht.
  - intros g s pass i d a. subst a. split.
    + by rewrite dragReducer_ADDITEM.
    + intros Hi Heq.
      apply (f_equal (λ o, returned_list o (slot_name i))) in Heq.
      rewrite !additem_result_at in Heq by done.
      injection Heq as Heq. apply app_inv_head in Heq.
      assert (new_issue (issueIdIncrement g + 1)
              = new_issue (issueIdIncrement g + 1 + 1)) as Hnew.
      { cbn [fst issueIdIncrement] in Heq. congruence. }
      apply new_issue_inj in Hnew. lia.
  - intros g s pass i d t'. subst t'. rewrite dragReducer_ADDITEM. cbv zeta.
    cbn [fst test]. split; [apply test_get_set_eq|].
    intros j Hj. by rewrite test_get_set_ne.
  - intros g s d1 d2 d3 t'. subst t'. rewrite dragReducer_UPDATE. cbn [fst test].
    split_and!.
    + rewrite (test_get_set_ne _ 2 0), (test_get_set_ne _ 1 0) by done.
      apply test_get_set_eq.
    + rewrite (test_get_set_ne _ 2 1) by done. apply test_get_set_eq.
    + apply test_get_set_eq.
    + intros j Hj. rewrite !test_get_set_ne by lia. done.
Qed.

Lemma reducer_depends_on_module_variables_witness :
  (0 < 3)%nat ∧
  (dragReducer initialStore initialState (ADDITEM "items" 0 Undef)).2
    ≠ (dragReducer
         (dragReducer initialStore initialState (ADDITEM "items" 0 Undef)).1
         initialState (ADDITEM "items" 0 Undef)).2.
Proof.
  assert (0 < 3)%nat as Hi by lia.
  split; [exact Hi|].
  exact (proj2 (proj1 (proj2 (proj2 (proj2 (proj2
                 reducer_depends_on_module_variables))))
                 initialStore initialState "items" 0%nat Undef) Hi).
Defined.

(** ** UPDATE *)

(** C4, evaluated.  On the initial state the [Add Issue] handler dispatches
    UPDATE with [state.items], [state.items2] and [state.items3], that is
    with [data], [undefined] and [undefined].  The reducer returns an array
    of three one-key objects, not an object keyed by list name, and each of
    them holds [myData1]: the issue with id 1, which was in [items] alone,
    is now in all three lists.  With [data2] supplied for [items2], its
    issue, id 5, is in no list of the result. *)
Theorem update_repeats_first_list :
  (let a := UPDATE (get (props initialState) "items")
                   (get (props initialState) "items2")
                   (get (props initialState) "items3") in
   ∃ s', (dragReducer initialStore initialState a).2 = Returned s' ∧
     rows s' = Some [ ("items", Arr (EIssue <$> data));
                      ("items2", Arr (EIssue <$> data));
                      ("items3", Arr (EIssue <$> data)) ] ∧
     props s' = ∅ ∧
     get (props s') "items" = Undef ∧
     lists_with_id initialState "1" = ["items"] ∧
     lists_with_id s' "1" = ["items"; "items2"; "items3"]) ∧
  (let s := obj {[ "items" := Arr (EIssue <$> data);
                   "items2" := Arr (EIssue <$> data2) ]} in
   let a := UPDATE (Arr (EIssue <$> data)) (Arr (EIssue <$> data2)) Undef in
   ∃ s', (dragReducer initialStore s a).2 = Returned s' ∧
     rows s' = Some [ ("items", Arr (EIssue <$> data));
                      ("items2", Arr (EIssue <$> data));
                      ("items3", Arr (EIssue <$> data)) ] ∧
     lists_with_id s "5" = ["items2"] ∧
     lists_with_id s' "5" = []).
Proof.
  split; cbv zeta.
  - eexists. split; [by rewrite dragReducer_UPDATE|].
    split_and!; by vm_compute.
  - eexists. split; [by rewrite dragReducer_UPDATE|].
    split_and!; by vm_compute.
Qed.

(** ** Issue ids *)

Section ids.
Implicit Types (g : Store) (s : jsstate) (m : gmap string cell)
  (l : list elem) (c : cell) (w : world).

Lemma elem_of_elem_ids l (i : string) :
  i ∈ elem_ids l ↔ ∃ x, EIssue x ∈ l ∧ id x = i.
Proof.
  unfold elem_ids. rewrite list_elem_of_omap. split.
  - intros ([x|] & Hin & Hx); [|done]. exists x. by simplify_eq.
  - intros (x & Hin & <-). by exists (EIssue x).
Qed.

Lemma elem_of_board_lists s (p : string * cell) :
  p ∈ board_lists s ↔
    p ∈ default [] (rows s) ∨ props s !! p.1 = Some p.2.
Proof.
  unfold board_lists. by rewrite elem_of_app, elem_of_map_to_list'.
Qed.

Lemma elem_of_board_ids s (i : string) :
  i ∈ board_ids s ↔
    ∃ p x, p ∈ board_lists s ∧ EIssue x ∈ or_empty p.2 ∧ id x = i.
Proof.
  unfold board_ids. rewrite list_elem_of_bind.
  setoid_rewrite elem_of_elem_ids. split.
  - intros (p & (x & ? & ?) & ?). by exists p, x.
  - intros (p & x & ? & ? & ?). exists p. eauto.
Qed.

Lemma ids_bounded_alt w :
  ids_bounded w ↔
    ∀ p, p ∈ board_lists w.2 → cell_bounded (issueIdIncrement w.1) p.2.
Proof.
  unfold ids_bounded, cell_bounded. setoid_rewrite elem_of_board_ids. split.
  - intros H p Hp x Hx. destruct (H (id x)) as (k & ? & ?); eauto 10.
  - intros H i (p & x & Hp & Hx & <-). eauto.
Qed.

Lemma cell_bounded_mono (n n' : Z) c :
  n ≤ n' → cell_bounded n c → cell_bounded n' c.
Proof.
  intros Hn H x Hx. destruct (H x Hx) as (k & ? & ?). exists k. split; [lia|done].
Qed.

Lemma cell_bounded_Undef (n : Z) : cell_bounded n Undef.
Proof. intros x Hx. simpl in Hx. by apply elem_of_nil in Hx. Qed.

(** What [state[name]] reads is bounded when the board is. *)
Lemma cell_bounded_get w (name : string) :
  ids_bounded w → cell_bounded (issueIdIncrement w.1) (get (props w.2) name).
Proof.
  rewrite ids_bounded_alt. intros H. unfold get.
  destruct (props w.2 !! name) as [c|] eqn:Hc; [|apply cell_bounded_Undef].
  apply (H (name, c)). apply elem_of_board_lists. by right.
Qed.

(** An id the counter has yet to reach is not on a bounded board. *)
Lemma fresh_id_not_on_board w (n : Z) :
  ids_bounded w → issueIdIncrement w.1 < n → toString n ∉ board_ids w.2.
Proof.
  intros H Hn Hin. destruct (H _ Hin) as (k & Hk & Heq).
  apply toString_inj in Heq. lia.
Qed.

Lemma splice_rest_subseteq l (i : Z) (n : nat) : (splice l i n []).2 ⊆ l.
Proof.
  unfold splice. cbn [snd app]. intros e [He|He]%elem_of_app.
  - by apply (subseteq_take _ _ _ He).
  - by apply (subseteq_drop _ _ _ He).
Qed.

Lemma first_splice_gone l (i : Z) (n : nat) (items : list elem) (x : Issue) :
  first (splice l i n items).1 = EIssue x → EIssue x ∈ l.
Proof.
  unfold splice. cbn [fst].
  destruct (take _ (drop _ l)) as [|e gone] eqn:E; [done|].
  cbn [first]. intros ->.
  apply (subseteq_drop (splice_start (length l) i)), (subseteq_take
    (Nat.min n (length l - splice_start (length l) i))).
  rewrite E. apply list_elem_of_here.
Qed.

Lemma elem_of_insert_at (n : nat) (x e : elem) l :
  e ∈ insert_at n x l → e = x ∨ e ∈ l.
Proof.
  unfold insert_at. intros [He|[->|He]%elem_of_cons]%elem_of_app.
  - right. by apply (subseteq_take _ _ _ He).
  - by left.
  - right. by apply (subseteq_drop _ _ _ He).
Qed.

Lemma elem_of_get m (name : string) (e : elem) :
  e ∈ or_empty (get m name) → ∃ c, m !! name = Some c ∧ e ∈ or_empty c.
Proof.
  unfold get. destruct (m !! name) as [c|]; [eauto|].
  simpl. by intros ?%elem_of_nil.
Qed.

(** MOVE creates no issue: every issue of the result was in some list of
    the state. *)
Lemma move_issues_from_state m (from to : string) (fromIndex toIndex : Z)
    (k : string) c (x : Issue) :
  move m from to fromIndex toIndex !! k = Some c →
  EIssue x ∈ or_empty c →
  ∃ k' c', m !! k' = Some c' ∧ EIssue x ∈ or_empty c'.
Proof.
  rewrite move_unfold. cbv zeta.
  set (r := splice (or_empty (get m from)) fromIndex 1 []).
  assert (EIssue x ∈ r.2 → ∃ k' c', m !! k' = Some c' ∧ EIssue x ∈ or_empty c')
    as Hrest.
  { intros Hx%splice_rest_subseteq.
    apply elem_of_get in Hx as (c' & ? & ?). eauto. }
  rewrite !lookup_insert. intros Hk Hx.
  destruct (decide (to = k)) as [<-|].
  - simplify_eq. cbn [or_empty] in Hx.
    apply elem_of_insert_at in Hx as [Hx|Hx].
    + symmetry in Hx.
      apply first_splice_gone, elem_of_get in Hx as (c' & ? & ?). eauto.
    + destruct (decide (from = to)); [by apply Hrest|].
      apply elem_of_get in Hx as (c' & ? & ?). eauto.
  - destruct (decide (from = k)) as [<-|]; [|by eauto].
    simplify_eq. by apply Hrest.
Qed.
End ids.

(** ** The handlers of [App] *)

Section handlers.
Implicit Types (g : Store) (s : jsstate) (w : world).

(** [Add Issue]: UPDATE stores the three lists of the state in [test],
    ADDITEM rebuilds [test[0]] from [state.items] and the new issue and
    returns the three slots of [test] as the new state. *)
Lemma handle_ClickAddIssue w :
  let m := props w.2 in
  let n := issueIdIncrement w.1 + 1 in
  let items' := Arr (or_empty (get m "items") ++ [EIssue (new_issue n)]) in
  handle w ClickAddIssue =
    (mkStore n (issueListsNames w.1)
       (test_set (test_set (test_set (test_set (test w.1) 0 (get m "items"))
                              1 (get m "items2")) 2 (get m "items3")) 0 items'),
     obj (<["items3" := get m "items3"]>
         (<["items2" := get m "items2"]>
         (<["items" := items']> ∅)))).
Proof.
  cbv zeta. unfold handle, dispatch.
  rewrite dragReducer_UPDATE. cbn [fst snd].
  rewrite dragReducer_ADDITEM. cbv zeta. cbn [issueIdIncrement issueListsNames test].
  rewrite test_get_set_eq.
  rewrite (test_get_set_ne _ 0 1), (test_get_set_ne _ 0 2) by done.
  rewrite test_get_set_eq.
  rewrite (test_get_set_ne _ 2 1) by done.
  by rewrite test_get_set_eq.
Qed.

(** [Add Issue List]: the name is built from the counter as it is, the
    counter is then incremented, and UPDATELISTS returns one one-key object
    per name. *)
Lemma handle_ClickAddList w :
  let names := issueListsNames w.1 ++ ["items" +:+ toString (issueIdIncrement w.1)] in
  handle w ClickAddList =
    (mkStore (issueIdIncrement w.1 + 1) names (test w.1),
     arr_of_rows ((λ item, (item, get (props w.2) item)) <$> names)).
Proof. reflexivity. Qed.

Lemma handle_DragEnd w (reason : string) (source : string * Z)
    (destination : option (string * Z)) :
  handle w (DragEnd reason source destination) = w ∨
  ∃ d, destination = Some d ∧
    handle w (DragEnd reason source destination) =
      (w.1, mkState (rows w.2) (move (props w.2) source.1 d.1 source.2 d.2)).
Proof.
  unfold handle. case_bool_decide; [|by left].
  destruct destination as [d|]; [|by left].
  rewrite dispatch_MOVE.
  destruct (inherited (props w.2) source.1 || inherited (props w.2) d.1);
    [by left|].
  right. by exists d.
Qed.

Lemma ids_bounded_init : ids_bounded (initialStore, initialState).
Proof.
  intros i Hi. vm_compute in Hi.
  repeat (apply elem_of_cons in Hi as [->|Hi]);
    [exists 1|exists 2|exists 3|exists 4|by apply elem_of_nil in Hi];
    by vm_compute.
Qed.

(** The handlers keep the ids on the board within the counter. *)
Lemma ids_bounded_handle w (e : event) :
  ids_bounded w → ids_bounded (handle w e).
Proof.
  intros Hw. destruct e as [reason source destination| |].
  - destruct (handle_DragEnd w reason source destination)
      as [->|(d & _ & ->)]; [done|].
    apply ids_bounded_alt. cbn [fst snd]. intros [k c] Hp x Hx. cbn [snd] in Hx.
    apply elem_of_board_lists in Hp as [Hp|Hp]; cbn [rows props fst snd] in Hp.
    + apply (proj1 (ids_bounded_alt w) Hw (k, c)); [|done].
      apply elem_of_board_lists. by left.
    + destruct (move_issues_from_state _ _ _ _ _ _ _ _ Hp Hx) as (k' & c' & Hk' & Hx').
      apply (proj1 (ids_bounded_alt w) Hw (k', c')); [|done].
      apply elem_of_board_lists. by right.
  - rewrite handle_ClickAddList. cbv zeta.
    apply ids_bounded_alt. cbn [fst snd issueIdIncrement]. intros p Hp.
    apply elem_of_board_lists in Hp as [Hp|Hp]; cbn [rows props arr_of_rows default] in Hp.
    + apply list_elem_of_fmap in Hp as (name & -> & _). cbn [snd].
      apply (cell_bounded_mono (issueIdIncrement w.1)); [lia|].
      by apply cell_bounded_get.
    + by rewrite lookup_empty in Hp.
  - rewrite handle_ClickAddIssue. cbv zeta.
    apply ids_bounded_alt. cbn [fst snd issueIdIncrement]. intros [k c] Hp.
    apply elem_of_board_lists in Hp as [Hp|Hp]; cbn [rows props obj default fst snd] in Hp.
    { by apply elem_of_nil in Hp. }
    cbn [snd]. rewrite !lookup_insert, lookup_empty in Hp.
    repeat case_decide; simplify_eq.
    + apply (cell_bounded_mono (issueIdIncrement w.1)); [lia|].
      by apply cell_bounded_get.
    + apply (cell_bounded_mono (issueIdIncrement w.1)); [lia|].
      by apply cell_bounded_get.
    + intros x [Hx|Hx]%elem_of_app.
      * destruct (cell_bounded_get w "items" Hw x Hx) as (n & ? & ?).
        exists n. split; [lia|done].
      * apply list_elem_of_singleton in Hx. simplify_eq.
        exists (issueIdIncrement w.1 + 1). split; [lia|done].
Qed.

Lemma reachable_ids_bounded w : reachable w → ids_bounded w.
Proof.
  induction 1 as [|w e _ IH]; [apply ids_bounded_init|by apply ids_bounded_handle].
Qed.
End handlers.

(** ** Add Issue *)

Lemma click_add_issue_items (w : world) :
  get (props (handle w ClickAddIssue).2) "items" =
    Arr (or_empty (get (props w.2) "items")
         ++ [EIssue (new_issue (issueIdIncrement w.1 + 1))]).
Proof.
  rewrite handle_ClickAddIssue. cbv zeta. cbn [snd props obj].
  rewrite (get_insert_ne _ "items3" "items"), (get_insert_ne _ "items2" "items")
    by done.
  apply get_insert_eq.
Qed.

Lemma click_add_issue_counter (w : world) :
  issueIdIncrement (handle w ClickAddIssue).1 = issueIdIncrement w.1 + 1.
Proof. by rewrite handle_ClickAddIssue. Qed.

Lemma new_issue_ids_differ (n : Z) : id (new_issue (n + 1)) ≠ id (new_issue (n + 2)).
Proof. cbn. intros H%toString_inj. lia. Qed.

Lemma click_add_issue_twice (w : world) :
  let c := issueIdIncrement w.1 in
  let w2 := handle (handle w ClickAddIssue) ClickAddIssue in
  get (props w2.2) "items" =
    Arr (or_empty (get (props w.2) "items")
         ++ [EIssue (new_issue (c + 1)); EIssue (new_issue (c + 2))]) ∧
  issueIdIncrement w2.1 = c + 2.
Proof.
  cbv zeta. rewrite click_add_issue_items, !click_add_issue_counter.
  rewrite click_add_issue_items. cbn [or_empty].
  rewrite <- !Z.add_assoc. change (1 + 1) with 2.
  by rewrite <- app_assoc.
Qed.

(** C8. In every state the application can reach, two presses of
    [Add Issue] in a row append two issues to [items], in the order of the
    presses; their ids are the next two values of the counter, they differ
    from each other, and neither is the id of an issue that was on the board
    before it was generated.  The same holds of two ADDITEM actions handed
    to the reducer one after the other, whatever their payloads.  Starting
    from [{items: []}], the two presses leave [items] with exactly the two
    new issues. *)
Theorem add_issue_ids_fresh :
  (∀ w : world, reachable w →
     let c := issueIdIncrement w.1 in
     let n1 := new_issue (c + 1) in
     let n2 := new_issue (c + 2) in
     let w1 := handle w ClickAddIssue in
     let w2 := handle w1 ClickAddIssue in
     get (props w1.2) "items"
       = Arr (or_empty (get (props w.2) "items") ++ [EIssue n1]) ∧
     get (props w2.2) "items"
       = Arr (or_empty (get (props w.2) "items") ++ [EIssue n1; EIssue n2]) ∧
     id n1 ≠ id n2 ∧
     (id n1 ∉ board_ids w.2) ∧
     (id n2 ∉ board_ids w1.2) ∧
     issueIdIncrement w1.1 = c + 1 ∧
     issueIdIncrement w2.1 = c + 2) ∧
  (∀ (g : Store) (s s' : jsstate) (pass pass' : string) (i i' : nat)
     (myData myData' : cell),
     (i < 3)%nat → (i' < 3)%nat →
     let c := issueIdIncrement g in
     let r1 := dragReducer g s (ADDITEM pass i myData) in
     let r2 := dragReducer r1.1 s' (ADDITEM pass' i' myData') in
     returned_list r1.2 (slot_name i)
       = Arr (or_empty myData ++ [EIssue (new_issue (c + 1))]) ∧
     returned_list r2.2 (slot_name i')
       = Arr (or_empty myData' ++ [EIssue (new_issue (c + 2))]) ∧
     id (new_issue (c + 1)) ≠ id (new_issue (c + 2))) ∧
  (∀ g : Store,
     let c := issueIdIncrement g in
     let w := (g, obj {[ "items" := Arr [] ]}) in
     let w2 := handle (handle w ClickAddIssue) ClickAddIssue in
     get (props w2.2) "items"
       = Arr [EIssue (new_issue (c + 1)); EIssue (new_issue (c + 2))] ∧
     id (new_issue (c + 1)) ≠ id (new_issue (c + 2))).
Proof.
  split_and!.
  - intros w Hw c n1 n2 w1 w2. subst c n1 n2 w1 w2.
    pose proof (reachable_ids_bounded w Hw) as Hb.
    pose proof (ids_bounded_handle w ClickAddIssue Hb) as Hb1.
    destruct (click_add_issue_twice w) as [Hitems Hc]. cbv zeta in Hitems, Hc.
    split_and!.
    + apply click_add_issue_items.
    + exact Hitems.
    + apply new_issue_ids_differ.
    + apply fresh_id_not_on_board; [done|lia].
    + apply fresh_id_not_on_board; [done|].
      rewrite click_add_issue_counter. lia.
    + apply click_add_issue_counter.
    + exact Hc.
  - intros g s s' pass pass' i i' d d' Hi Hi' c r1 r2. subst c r1 r2.
    split_and!.
    + by apply additem_result_at.
    + rewrite additem_result_at by done.
      rewrite dragReducer_ADDITEM. cbn [fst issueIdIncrement].
      by rewrite <- Z.add_assoc.
    + apply new_issue_ids_differ.
  - intros g c w w2. subst c w w2. split; [|apply new_issue_ids_differ].
    destruct (click_add_issue_twice (g, obj {[ "items" := Arr [] ]})) as [-> _].
    done.
Qed.

Lemma add_issue_ids_fresh_witness :
  reachable (initialStore, initialState) ∧
  let w := (initialStore, initialState) in
  let w1 := handle w ClickAddIssue in
  let w2 := handle w1 ClickAddIssue in
  get (props w1.2) "items"
    = Arr (or_empty (get (props w.2) "items") ++ [EIssue (new_issue (6 + 1))]) ∧
  get (props w2.2) "items"
    = Arr (or_empty (get (props w.2) "items")
           ++ [EIssue (new_issue (6 + 1)); EIssue (new_issue (6 + 2))]) ∧
  id (new_issue (6 + 1)) ≠ id (new_issue (6 + 2)) ∧
  (id (new_issue (6 + 1)) ∉ board_ids w.2) ∧
  (id (new_issue (6 + 2)) ∉ board_ids w1.2) ∧
  issueIdIncrement w1.1 = 6 + 1 ∧
  issueIdIncrement w2.1 = 6 + 2.
Proof.
  split; [exact reachable_init|].
  exact (proj1 add_issue_ids_fresh (initialStore, initialState) reachable_init).
Defined.

(** ** Add Issue List *)

Section list_names.
Implicit Types (g : Store) (w : world) (n : Z).

Lemma pretty_N_go_nonempty (x : N) (s : string) :
  s ≠ "" → pretty_N_go x s ≠ "".
Proof.
  revert s. induction (N.lt_wf_0 x) as [x _ IH]. intros s Hs.
  destruct (decide (x = 0)%N) as [->|Hx]; [done|].
  rewrite pretty_N_go_step by lia.
  apply IH; [apply N.div_lt; lia|done].
Qed.

Lemma toString_nonempty n : toString n ≠ "".
Proof.
  unfold toString, pretty, pretty_Z. destruct n as [|p|p]; [done| |done].
  unfold pretty, pretty_positive, pretty, pretty_N.
  rewrite decide_False by done.
  rewrite pretty_N_go_step by lia. by apply pretty_N_go_nonempty.
Qed.

Lemma items_name_inj n1 n2 :
  "items" +:+ toString n1 = "items" +:+ toString n2 → n1 = n2.
Proof. intros H. by apply toString_inj, (inj (String.app "items")). Qed.

Lemma items_name_not_items n : "items" +:+ toString n ≠ "items".
Proof.
  intros H. apply (toString_nonempty n).
  by apply (inj (String.app "items")).
Qed.

Lemma names_fresh_init : names_fresh initialStore.
Proof.
  split.
  - cbn. apply (bool_decide_unpack _). by vm_compute.
  - intros n Hn. cbn in *. intros Hin.
    repeat (apply elem_of_cons in Hin as [Hin|Hin]).
    + by apply items_name_not_items in Hin.
    + apply (items_name_inj n 2) in Hin. lia.
    + apply (items_name_inj n 3) in Hin. lia.
    + by apply elem_of_nil in Hin.
Qed.
End list_names.

Section add_list.
Implicit Types (g : Store) (w : world) (k : nat).

(** The handlers keep the names distinct and the names to come unused. *)
Lemma names_fresh_handle w (e : event) :
  names_fresh w.1 → names_fresh (handle w e).1.
Proof.
  intros [Hnd Hfresh]. destruct e as [reason source destination| |].
  - by destruct (handle_DragEnd w reason source destination)
      as [->|(d & _ & ->)].
  - rewrite handle_ClickAddList. cbv zeta. cbn [fst]. split; cbn.
    + apply NoDup_app. split_and!; [done| |apply NoDup_singleton].
      intros name Hin ->%list_elem_of_singleton.
      by apply (Hfresh (issueIdIncrement w.1)).
    + intros n Hn [Hin|Hin%list_elem_of_singleton]%elem_of_app.
      * apply (Hfresh n); [lia|done].
      * apply items_name_inj in Hin. lia.
  - rewrite handle_ClickAddIssue. cbv zeta. cbn [fst]. split; cbn; [done|].
    intros n Hn. apply Hfresh. lia.
Qed.

Lemma reachable_names_fresh w : reachable w → names_fresh w.1.
Proof.
  induction 1 as [|w e _ IH]; [apply names_fresh_init|by apply names_fresh_handle].
Qed.

Lemma add_lists_S k w :
  add_lists (S k) w = handle (add_lists k w) ClickAddList.
Proof. reflexivity. Qed.

Lemma names_fresh_add_lists k w :
  names_fresh w.1 → names_fresh (add_lists k w).1.
Proof.
  intros Hw. induction k as [|k IH]; [done|].
  rewrite add_lists_S. by apply names_fresh_handle.
Qed.

(** The names after [k] presses: those before, then one per press, built
    from consecutive values of the counter. *)
Lemma add_lists_names k w :
  issueListsNames (add_lists k w).1 =
    issueListsNames w.1 ++
    ((λ i : nat, "items" +:+ toString (issueIdIncrement w.1 + Z.of_nat i))
       <$> seq 0 k) ∧
  issueIdIncrement (add_lists k w).1 = issueIdIncrement w.1 + Z.of_nat k.
Proof.
  induction k as [|k [IHn IHc]].
  - cbn. split; [by rewrite app_nil_r|lia].
  - rewrite add_lists_S, handle_ClickAddList. cbv zeta.
    cbn [fst issueListsNames issueIdIncrement]. split; [|lia].
    rewrite IHn, IHc, seq_S, fmap_app, <- app_assoc. done.
Qed.

Lemma rows_names (f : string → cell) (names : list string) :
  ((λ item, (item, f item)) <$> names).*1 = names.
Proof. induction names as [|a l IH]; [done|]. cbn. by rewrite IH. Qed.

(** The state after at least one press is the array UPDATELISTS built,
    one object per name. *)
Lemma add_lists_rows k w :
  ∃ r, rows (add_lists (S k) w).2 = Some r ∧
       r.*1 = issueListsNames (add_lists (S k) w).1.
Proof.
  rewrite add_lists_S, handle_ClickAddList. cbv zeta.
  eexists. split; [reflexivity|]. apply rows_names.
Qed.
End add_list.

(** C9. In every state the application can reach the list names are
    pairwise distinct.  [Add Issue List] appends to them the name made of
    [items] and the current value of the counter, which it then increments;
    after any number [k] of presses in a row the names are those before
    followed by the [k] names of the [k] consecutive counter values, they are
    still pairwise distinct, and, once the button has been pressed, the
    state is an array with one list per name, in the same order. *)
Theorem add_list_names_unique (w : world) (k : nat) :
  reachable w →
  let c := issueIdIncrement w.1 in
  let w' := add_lists k w in
  NoDup (issueListsNames w.1) ∧
  issueListsNames w'.1 =
    issueListsNames w.1 ++
    ((λ i : nat, "items" +:+ toString (c + Z.of_nat i)) <$> seq 0 k) ∧
  NoDup (issueListsNames w'.1) ∧
  ((0 < k)%nat →
   ∃ r, rows w'.2 = Some r ∧ r.*1 = issueListsNames w'.1 ∧ NoDup r.*1).
Proof.
  intros Hw%reachable_names_fresh. cbv zeta.
  pose proof (names_fresh_add_lists k w Hw) as [Hnd _].
  split_and!.
  - by destruct Hw.
  - apply add_lists_names.
  - done.
  - intros Hk. destruct k as [|k]; [lia|].
    destruct (add_lists_rows k w) as (r & Hr & Hnames).
    exists r. split_and!; [done..|]. by rewrite Hnames.
Qed.

Lemma add_list_names_unique_witness :
  reachable (initialStore, initialState) ∧
  let w := (initialStore, initialState) in
  let w' := add_lists 2 w in
  NoDup (issueListsNames w.1) ∧
  issueListsNames w'.1 =
    issueListsNames w.1 ++
    ((λ i : nat, "items" +:+ toString (6 + Z.of_nat i)) <$> seq 0 2) ∧
  NoDup (issueListsNames w'.1) ∧
  ((0 < 2)%nat →
   ∃ r, rows w'.2 = Some r ∧ r.*1 = issueListsNames w'.1 ∧ NoDup r.*1).
Proof.
  split; [exact reachable_init|].
  exact (add_list_names_unique (initialStore, initialState) 2 reachable_init).
Defined.

(** Two presses from the initial state, evaluated. *)
Example add_list_twice_from_init :
  issueListsNames (add_lists 2 (initialStore, initialState)).1
    = ["items"; "items2"; "items3"; "items6"; "items7"].
Proof. by vm_compute. Qed.

(** * Further properties of the board *)

(** ** What a MOVE does to the issues, whatever its indices *)

(** How often [i] occurs in a list of ids, and among the issues of a list. *)
Definition occurrences (i : string) (l : list string) : nat :=
  List.count_occ String.eq_dec l i.

Definition id_occurrences (i : string) (l : list elem) : nat :=
  occurrences i (elem_ids l).

(** The ids of the issues of named lists, list after list. *)
Definition ids_of (ps : list (string * cell)) : list string :=
  ps ≫= (λ p, elem_ids (or_empty p.2)).

Section measure_any_move.
Variable f : list elem → nat.
Hypothesis f_app : ∀ l1 l2, f (l1 ++ l2) = (f l1 + f l2)%nat.
Hypothesis f_undef : f [EUndef] = 0%nat.

Implicit Types (m : gmap string cell) (l : list elem).

Lemma measure_nil : f [] = 0%nat.
Proof. pose proof (f_app [] []) as H. simpl in H. lia. Qed.

(** What [splice] takes out is what the array loses; when it takes out
    nothing, [removed] is [undefined], which the measure does not count. *)
Lemma measure_splice_one l (i : Z) :
  (f (splice l i 1 []).2 + f [first (splice l i 1 []).1])%nat = f l.
Proof.
  unfold splice. cbn [fst snd app].
  set (s := splice_start (length l) i).
  assert (s ≤ length l)%nat as Hs by apply splice_start_le.
  destruct (decide (s = length l)) as [Hlen|Hlt].
  - rewrite Hlen, Nat.sub_diag, Nat.min_0_r, Nat.add_0_r, take_0.
    cbn [first]. rewrite f_undef, take_drop. lia.
  - replace (Nat.min 1 (length l - s)) with 1%nat by lia.
    destruct (lookup_lt_is_Some_2 l s) as [x Hx]; [lia|].
    rewrite <- (take_drop_middle l s x Hx) at 4.
    rewrite (drop_S l x s Hx). cbn [take first].
    replace (s + 1)%nat with (S s) by lia.
    change (x :: drop (S s) l) with ([x] ++ drop (S s) l).
    rewrite !f_app. lia.
Qed.

Lemma get_delete_ne m (k k' : string) :
  k ≠ k' → get (delete k m) k' = get m k'.
Proof. intros. unfold get. by rewrite lookup_delete_ne. Qed.

Lemma measure_get_lookup m (k : string) :
  sum_lists f m = (f (or_empty (get m k)) + sum_lists f (delete k m))%nat.
Proof.
  unfold get. destruct (m !! k) as [c|] eqn:Hk.
  - by apply sum_lists_lookup.
  - rewrite delete_id by done. cbn. rewrite measure_nil. lia.
Qed.

(** The four statements of the MOVE case leave the sum of such a measure
    over the lists as it was, whatever the names and the indices. *)
Lemma sum_lists_any_move m (from to : string) (fromIndex toIndex : Z) :
  sum_lists f (move m from to fromIndex toIndex) = sum_lists f m.
Proof.
  rewrite move_unfold. cbv zeta.
  pose proof (measure_splice_one (or_empty (get m from)) fromIndex) as Hsp.
  set (r := splice (or_empty (get m from)) fromIndex 1 []) in *.
  rewrite (measure_get_lookup m from).
  destruct (decide (from = to)) as [<-|Hne].
  - rewrite insert_insert_eq, sum_lists_insert. cbn [or_empty].
    rewrite (measure_insert_at f f_app). lia.
  - rewrite sum_lists_insert. cbn [or_empty].
    rewrite (measure_insert_at f f_app).
    rewrite delete_insert_ne by done.
    rewrite sum_lists_insert. cbn [or_empty].
    rewrite (measure_get_lookup (delete from m) to).
    rewrite (get_delete_ne m from to Hne).
    rewrite (delete_delete m from to). lia.
Qed.
End measure_any_move.

Section id_counts.
Implicit Types (s : jsstate) (m : gmap string cell) (l : list elem) (i : string).

Lemma id_occurrences_app i l1 l2 :
  id_occurrences i (l1 ++ l2) = (id_occurrences i l1 + id_occurrences i l2)%nat.
Proof.
  unfold id_occurrences, occurrences, elem_ids.
  by rewrite omap_app, List.count_occ_app.
Qed.

Lemma occurrences_ids_of_app i (ps qs : list (string * cell)) :
  occurrences i (ids_of (ps ++ qs))
    = (occurrences i (ids_of ps) + occurrences i (ids_of qs))%nat.
Proof. unfold ids_of, occurrences. by rewrite bind_app, List.count_occ_app. Qed.

Lemma occurrences_ids_of_cons i (p : string * cell) (ps : list (string * cell)) :
  occurrences i (ids_of (p :: ps))
    = (id_occurrences i (or_empty p.2) + occurrences i (ids_of ps))%nat.
Proof.
  unfold ids_of, id_occurrences, occurrences.
  by rewrite bind_cons, List.count_occ_app.
Qed.

(** Counting over the list of a map is the sum over the map. *)
Lemma occurrences_ids_of_map i m :
  occurrences i (ids_of (map_to_list m)) = sum_lists (id_occurrences i) m.
Proof.
  unfold sum_lists. rewrite map_fold_foldr.
  induction (map_to_list m) as [|[k c] ps IH]; [done|].
  rewrite occurrences_ids_of_cons, IH. done.
Qed.

Lemma occurrences_board_ids i s :
  occurrences i (board_ids s)
    = (occurrences i (ids_of (default [] (rows s)))
       + sum_lists (id_occurrences i) (props s))%nat.
Proof.
  change (board_ids s) with (ids_of (board_lists s)). unfold board_lists.
  by rewrite occurrences_ids_of_app, occurrences_ids_of_map.
Qed.
End id_counts.

Lemma occurrences_after_move (i : string) (s : jsstate) (from to : string)
    (fromIndex toIndex : Z) :
  occurrences i (board_ids (mkState (rows s)
                   (move (props s) from to fromIndex toIndex)))
    = occurrences i (board_ids s).
Proof.
  rewrite !occurrences_board_ids. cbn [rows props].
  by rewrite (sum_lists_any_move (id_occurrences i) (id_occurrences_app i)).
Qed.

(** X1. On a state that is a mapping, a MOVE neither loses nor duplicates
    an issue, whatever its indices are and whether or not [from] and [to]
    are lists of the state.  Either one of the two names is one the state
    does not have but inherits, and then the MOVE throws and there is no new
    state; or the reducer returns a state on which the ids are those of
    before, each as often as before, and the number of issues is unchanged. *)
Theorem any_move_keeps_the_issues (g : Store) (s : jsstate) (from to : string)
    (fromIndex toIndex : Z) :
  rows s = None →
  if inherited (props s) from || inherited (props s) to
  then dragReducer g s (MOVE from to fromIndex toIndex) = (g, RuntimeError)
  else ∃ s', dragReducer g s (MOVE from to fromIndex toIndex) = (g, Returned s') ∧
             board_ids s' ≡ₚ board_ids s ∧
             issue_count (props s') = issue_count (props s) ∧
             rows s' = None.
Proof.
  intros Hrows.
  destruct (inherited (props s) from || inherited (props s) to) eqn:Hinh.
  - by apply dragReducer_MOVE_inherited.
  - apply orb_false_elim in Hinh as [Hfrom Hto].
    eexists. split; [by apply dragReducer_MOVE|]. split_and!.
    + apply (Permutation_count_occ String.eq_dec). intros i.
      apply occurrences_after_move.
    + cbn [props].
      by apply (sum_lists_any_move issues_in issues_in_app).
    + done.
Qed.

Lemma any_move_keeps_the_issues_witness :
  rows two_lists = None ∧
  ∃ s', dragReducer initialStore two_lists (MOVE "items" "items9" 7 (-3))
          = (initialStore, Returned s') ∧
        board_ids s' ≡ₚ board_ids two_lists ∧
        issue_count (props s') = issue_count (props two_lists) ∧
        rows s' = None.
Proof.
  assert (rows two_lists = None) as Hrows by reflexivity.
  split; [exact Hrows|].
  exact (any_move_keeps_the_issues initialStore two_lists "items" "items9" 7 (-3)
           Hrows).
Defined.

(** ** Order *)

Lemma sublist_insert_at (n : nat) (x : elem) (l : list elem) :
  l `sublist_of` insert_at n x l.
Proof.
  unfold insert_at. rewrite <- (take_drop n l) at 1.
  apply sublist_app; [done|]. by apply sublist_cons.
Qed.

Lemma insert_at_Permutation (n : nat) (x : elem) (l : list elem) :
  insert_at n x l ≡ₚ x :: l.
Proof.
  unfold insert_at. rewrite <- Permutation_middle. by rewrite take_drop.
Qed.

(** X2. A MOVE from an existing position keeps the order of all other
    elements.  The [from] list without the element at [fromIndex] is, in that
    order, what the [from] list is afterwards when [to] is another list, and
    it is a sublist of the [to] list afterwards when [to] is the same list;
    the [to] list of before, shortened by that element when it is the same
    list, is a sublist of the [to] list of the result, which has the moved
    element and nothing else in addition.  (When [to] is a name the state
    does not have but inherits, the reducer throws and returns no state.) *)
Theorem move_keeps_order (g : Store) (s : jsstate) (from to : string)
    (fromIndex toIndex : Z) (lf : list elem) :
  props s !! from = Some (Arr lf) →
  0 ≤ fromIndex < Z.of_nat (length lf) →
  if inherited (props s) to
  then dragReducer g s (MOVE from to fromIndex toIndex) = (g, RuntimeError)
  else
  ∃ x s' lt',
    lf !! Z.to_nat fromIndex = Some x ∧
    dragReducer g s (MOVE from to fromIndex toIndex) = (g, Returned s') ∧
    props s' !! to = Some (Arr lt') ∧
    let rest := delete (Z.to_nat fromIndex) lf in
    let lt := if decide (from = to) then rest else or_empty (get (props s) to) in
    (from ≠ to → props s' !! from = Some (Arr rest)) ∧
    lt `sublist_of` lt' ∧
    lt' ≡ₚ x :: lt.
Proof.
  intros Hf Hi.
  destruct (inherited (props s) to) eqn:Hto.
  { apply dragReducer_MOVE_inherited. rewrite Hto. apply orb_true_r. }
  destruct (lookup_lt_is_Some_2 lf (Z.to_nat fromIndex)) as [x Hx]; [lia|].
  pose proof (move_from_index (props s) from to fromIndex toIndex lf x Hf
                (proj1 Hi) Hx) as Hm.
  cbv zeta in Hm.
  eexists x, _, _. split; [done|].
  split; [apply dragReducer_MOVE; [by eapply inherited_own|done]|].
  cbn [props]. rewrite Hm. split; [apply lookup_insert_eq|]. cbv zeta.
  split_and!.
  - intros Hne. rewrite lookup_insert_ne by done. apply lookup_insert_eq.
  - apply sublist_insert_at.
  - apply insert_at_Permutation.
Qed.

Lemma move_keeps_order_witness :
  props initialState !! "items" = Some (Arr (EIssue <$> data)) ∧
  0 ≤ 0 < Z.of_nat (length (EIssue <$> data)) ∧
  ∃ x s' lt',
    (EIssue <$> data) !! Z.to_nat 0 = Some x ∧
    dragReducer initialStore initialState (MOVE "items" "items" 0 2)
      = (initialStore, Returned s') ∧
    props s' !! "items" = Some (Arr lt') ∧
    let rest := delete (Z.to_nat 0) (EIssue <$> data) in
    let lt := if decide ("items" = "items") then rest
              else or_empty (get (props initialState) "items") in
    ("items" ≠ "items" → props s' !! "items" = Some (Arr rest)) ∧
    lt `sublist_of` lt' ∧
    lt' ≡ₚ x :: lt.
Proof.
  assert (props initialState !! "items" = Some (Arr (EIssue <$> data))) as Hf
    by reflexivity.
  assert (0 ≤ 0 < Z.of_nat (length (EIssue <$> data))) as Hi by (simpl; lia).
  split; [exact Hf|]. split; [exact Hi|].
  exact (move_keeps_order initialStore initialState "items" "items" 0 2 _ Hf Hi).
Defined.

(** X3. Where the moved element lands when [toIndex] is not a position of
    the [to] list as it is at the insertion (the [from] list already
    shortened, when it is the same list): at the end for a [toIndex] at or
    past the length, at the front for one at or below minus the length, and
    counted from the end for a negative one in between, so that -1 puts it
    before the last element.  (When [to] is a name the state does not have
    but inherits, the reducer throws and returns no state.) *)
Theorem move_to_index_is_clamped (g : Store) (s : jsstate) (from to : string)
    (fromIndex toIndex : Z) (lf : list elem) :
  props s !! from = Some (Arr lf) →
  0 ≤ fromIndex < Z.of_nat (length lf) →
  if inherited (props s) to
  then dragReducer g s (MOVE from to fromIndex toIndex) = (g, RuntimeError)
  else
  ∃ x s' lt',
    lf !! Z.to_nat fromIndex = Some x ∧
    dragReducer g s (MOVE from to fromIndex toIndex) = (g, Returned s') ∧
    props s' !! to = Some (Arr lt') ∧
    let lt := if decide (from = to) then delete (Z.to_nat fromIndex) lf
              else or_empty (get (props s) to) in
    let len := Z.of_nat (length lt) in
    (len ≤ toIndex → lt' = lt ++ [x]) ∧
    (toIndex ≤ - len → lt' = x :: lt) ∧
    (- len ≤ toIndex < 0 → lt' = insert_at (Z.to_nat (len + toIndex)) x lt).
Proof.
  intros Hf Hi.
  destruct (inherited (props s) to) eqn:Hto.
  { apply dragReducer_MOVE_inherited. rewrite Hto. apply orb_true_r. }
  destruct (lookup_lt_is_Some_2 lf (Z.to_nat fromIndex)) as [x Hx]; [lia|].
  pose proof (move_from_index (props s) from to fromIndex toIndex lf x Hf
                (proj1 Hi) Hx) as Hm.
  cbv zeta in Hm.
  eexists x, _, _. split; [done|].
  split; [apply dragReducer_MOVE; [by eapply inherited_own|done]|].
  cbn [props]. rewrite Hm. split; [apply lookup_insert_eq|]. cbv zeta.
  set (lt := if decide (from = to) then delete (Z.to_nat fromIndex) lf
             else or_empty (get (props s) to)).
  split_and!.
  - intros Hj. rewrite splice_start_beyond by done.
    unfold insert_at. by rewrite take_ge, drop_all.
  - intros Hj. unfold splice_start.
    destruct (decide (toIndex < 0)).
    + rewrite bool_decide_eq_true_2 by done.
      replace (Z.to_nat (Z.max (Z.of_nat (length lt) + toIndex) 0)) with 0%nat by lia.
      done.
    + rewrite bool_decide_eq_false_2 by done.
      replace (Z.to_nat (Z.min toIndex (Z.of_nat (length lt)))) with 0%nat by lia.
      done.
  - intros Hj. unfold splice_start.
    rewrite bool_decide_eq_true_2 by lia. do 2 f_equal. lia.
Qed.

Lemma move_to_index_is_clamped_witness :
  props two_lists !! "items" = Some (Arr (EIssue <$> data)) ∧
  0 ≤ 1 < Z.of_nat (length (EIssue <$> data)) ∧
  ∃ x s' lt',
    (EIssue <$> data) !! Z.to_nat 1 = Some x ∧
    dragReducer initialStore two_lists (MOVE "items" "items" 1 (-1))
      = (initialStore, Returned s') ∧
    props s' !! "items" = Some (Arr lt') ∧
    let lt := if decide ("items" = "items") then delete (Z.to_nat 1) (EIssue <$> data)
              else or_empty (get (props two_lists) "items") in
    let len := Z.of_nat (length lt) in
    (len ≤ -1 → lt' = lt ++ [x]) ∧
    (-1 ≤ - len → lt' = x :: lt) ∧
    (- len ≤ -1 < 0 → lt' = insert_at (Z.to_nat (len + -1)) x lt).
Proof.
  assert (props two_lists !! "items" = Some (Arr (EIssue <$> data))) as Hf
    by reflexivity.
  assert (0 ≤ 1 < Z.of_nat (length (EIssue <$> data))) as Hi by (simpl; lia).
  split; [exact Hf|]. split; [exact Hi|].
  exact (move_to_index_is_clamped initialStore two_lists "items" "items" 1 (-1)
           _ Hf Hi).
Defined.

(** ** What is rendered *)

(** What the render functions hand to the drag-and-drop library and show, as
    data: a [Draggable] with its [key], [draggableId], [index] and the text
    of its [span]; a [Droppable] with its [droppableId] and the draggables
    inside it.  Styles, refs, the placeholder and the buttons are left out. *)
Record Card := mkCard {
  key : string;
  draggableId : string;
  index : nat;
  text : string
}.

Record Column := mkColumn {
  droppableId : string;
  cards : list Card
}.

(** [arrangeIssue]: the text of the [span]. *)
Definition arrangeIssue (issue : Issue) : string := content issue +:+ " ".

(** [arrangeIssueInList(issue, index)].  Reading [issue.id] of [undefined]
    is a TypeError: [None]. *)
Definition arrangeIssueInList (issue : elem) (index : nat) : option Card :=
  match issue with
  | EIssue i => Some (mkCard (id i) (id i) index (arrangeIssue i))
  | EUndef => None
  end.

(** [mapItem.map((issue, index) => arrangeIssueInList(issue, index))], from
    index [index] on. *)
Fixpoint arrangeIssues (index : nat) (l : list elem) : option (list Card) :=
  match l with
  | [] => Some []
  | issue :: l' =>
      match arrangeIssueInList issue index, arrangeIssues (S index) l' with
      | Some c, Some cs => Some (c :: cs)
      | _, _ => None
      end
  end.

(** [arrangeDragDropForIssueList]: [mapItem?.map(...)] renders nothing for
    [undefined]. *)
Definition arrangeDragDropForIssueList (mapItem : cell) : option (list Card) :=
  match mapItem with
  | Arr l => arrangeIssues 0 l
  | Undef => Some []
  end.

(** [arrangeDataInDragDropList(state, item, index)]: the droppable is named
    after the position of the list, its content is [state[item]]. *)
Definition arrangeDataInDragDropList (state : gmap string cell) (item : string)
    (index : nat) : option Column :=
  match arrangeDragDropForIssueList (get state item) with
  | Some cs => Some (mkColumn ("items" +:+ toString (Z.of_nat index)) cs)
  | None => None
  end.

(** [issueListsNames.map((item, index) => arrangeDataInDragDropList(state,
    item, index))], from index [index] on. *)
Fixpoint arrangeLists (state : gmap string cell) (index : nat)
    (names : list string) : option (list Column) :=
  match names with
  | [] => Some []
  | item :: names' =>
      match arrangeDataInDragDropList state item index,
            arrangeLists state (S index) names' with
      | Some c, Some cs => Some (c :: cs)
      | _, _ => None
      end
  end.

(** What [App] renders in a world, [None] when rendering throws. *)
Definition render (w : world) : option (list Column) :=
  arrangeLists (props w.2) 0 (issueListsNames w.1).

(** The first three names are those the module starts with, a name further
    on is [items] followed by a number that is at least three more than its
    position, and the counter is at least three more than the number of
    names. *)
Definition names_shape (g : Store) : Prop :=
  take 3 (issueListsNames g) = ["items"; "items2"; "items3"] ∧
  (∀ (i : nat) name, (3 ≤ i)%nat → issueListsNames g !! i = Some name →
     ∃ c, name = "items" +:+ toString c ∧ Z.of_nat i + 3 ≤ c) ∧
  Z.of_nat (length (issueListsNames g)) + 3 ≤ issueIdIncrement g.

Section rendering.
Implicit Types (w : world) (m : gmap string cell) (l : list elem)
  (names : list string).

Lemma arrangeIssues_None (n : nat) l :
  arrangeIssues n l = None ↔ EUndef ∈ l.
Proof.
  revert n. induction l as [|e l IH]; intros n; cbn.
  - split; [done|]. by intros ?%elem_of_nil.
  - rewrite elem_of_cons. destruct e as [i|]; cbn.
    + destruct (arrangeIssues (S n) l) as [cs|] eqn:E.
      * split; [done|]. intros [?|Hin]; [done|].
        apply (IH (S n)) in Hin. congruence.
      * split; [|done]. intros _. right. by apply (IH (S n)).
    + split; [by left|done].
Qed.

Lemma arrangeIssues_Some (n : nat) l (cs : list Card) :
  arrangeIssues n l = Some cs →
  draggableId <$> cs = elem_ids l ∧
  key <$> cs = elem_ids l ∧
  index <$> cs = seq n (length l).
Proof.
  revert n cs. induction l as [|e l IH]; intros n cs; cbn.
  - by intros [= <-].
  - destruct e as [i|]; cbn; [|done].
    destruct (arrangeIssues (S n) l) as [cs'|] eqn:E; [|done].
    intros [= <-]. destruct (IH _ _ E) as (Hd & Hk & Hi).
    cbn. by rewrite Hd, Hk, Hi.
Qed.

Lemma arrangeLists_None m (n : nat) names :
  arrangeLists m n names = None ↔
    ∃ name, name ∈ names ∧ EUndef ∈ or_empty (get m name).
Proof.
  revert n. induction names as [|item names IH]; intros n; cbn.
  - split; [done|]. by intros (? & ?%elem_of_nil & _).
  - unfold arrangeDataInDragDropList, arrangeDragDropForIssueList.
    destruct (get m item) as [l|] eqn:Hg; cbn.
    + destruct (arrangeIssues 0 l) as [cs|] eqn:E.
      * destruct (arrangeLists m (S n) names) as [v|] eqn:E'.
        -- split; [done|]. intros (name & [->|Hin]%elem_of_cons & Hu).
           ++ rewrite Hg in Hu. cbn in Hu.
              apply (arrangeIssues_None 0) in Hu. congruence.
           ++ assert (arrangeLists m (S n) names = None) by (apply IH; eauto).
              congruence.
        -- split; [|done]. intros _.
           destruct (proj1 (IH (S n)) E') as (name & ? & ?).
           exists name. split; [by right|done].
      * split; [|done]. intros _. exists item. split; [by left|].
        rewrite Hg. by apply (arrangeIssues_None 0).
    + destruct (arrangeLists m (S n) names) as [v|] eqn:E'.
      * split; [done|]. intros (name & [->|Hin]%elem_of_cons & Hu).
        -- rewrite Hg in Hu. by apply elem_of_nil in Hu.
        -- assert (arrangeLists m (S n) names = None) by (apply IH; eauto).
           congruence.
      * split; [|done]. intros _.
        destruct (proj1 (IH (S n)) E') as (name & ? & ?).
        exists name. split; [by right|done].
Qed.

Lemma arrangeLists_Some m (n : nat) names (v : list Column) :
  arrangeLists m n names = Some v →
  length v = length names ∧
  ∀ (i : nat) col, v !! i = Some col →
    droppableId col = "items" +:+ toString (Z.of_nat (n + i)) ∧
    ∃ name, names !! i = Some name ∧
      draggableId <$> cards col = elem_ids (or_empty (get m name)) ∧
      index <$> cards col = seq 0 (length (or_empty (get m name))).
Proof.
  revert n v. induction names as [|item names IH]; intros n v; cbn.
  - intros [= <-]. split; [done|]. intros i col Hi. by destruct i.
  - unfold arrangeDataInDragDropList, arrangeDragDropForIssueList.
    destruct (match get m item with
              | Arr l => arrangeIssues 0 l
              | Undef => Some []
              end) as [cs|] eqn:Hcs; [|done].
    destruct (arrangeLists m (S n) names) as [v'|] eqn:E; [|done].
    intros [= <-]. destruct (IH _ _ E) as [Hlen Hcols].
    split; [cbn; by rewrite Hlen|].
    intros [|i] col Hi; cbn in Hi.
    + injection Hi as <-. cbn. rewrite Nat.add_0_r. split; [done|].
      exists item. split; [done|].
      destruct (get m item) as [l|]; cbn.
      * by destruct (arrangeIssues_Some 0 l cs Hcs) as (? & _ & ?).
      * by injection Hcs as <-.
    + destruct (Hcols i col Hi) as (Hd & name & ? & ?).
      split; [|by exists name].
      rewrite Hd. do 3 f_equal. lia.
Qed.

(** Rendering reads the state under the list names and nowhere else. *)
Lemma arrangeLists_ext m m' (n : nat) names :
  (∀ name, name ∈ names → get m name = get m' name) →
  arrangeLists m n names = arrangeLists m' n names.
Proof.
  revert n. induction names as [|item names IH]; intros n Hget; [done|].
  cbn. unfold arrangeDataInDragDropList.
  rewrite (Hget item) by (by left).
  rewrite (IH (S n)); [done|]. intros name Hin. apply Hget. by right.
Qed.

Lemma names_shape_init : names_shape initialStore.
Proof.
  split_and!; [done| |cbn; lia].
  intros i name Hi Hlook. apply lookup_lt_Some in Hlook. cbn in Hlook. lia.
Qed.

Lemma names_shape_handle w (e : event) :
  names_shape w.1 → names_shape (handle w e).1.
Proof.
  intros (Hfirst & Hrest & Hlen). destruct e as [reason source destination| |].
  - by destruct (handle_DragEnd w reason source destination)
      as [->|(d & _ & ->)].
  - rewrite handle_ClickAddList. cbv zeta. cbn [fst issueListsNames issueIdIncrement].
    assert (3 ≤ length (issueListsNames w.1))%nat as Hthree.
    { assert (length (take 3 (issueListsNames w.1)) = 3%nat) as Hl
        by (by rewrite Hfirst).
      rewrite length_take in Hl. lia. }
    unfold names_shape. cbn [issueListsNames issueIdIncrement].
    split_and!.
    + by rewrite take_app_le.
    + intros i name Hi Hlook.
      destruct (decide (i < length (issueListsNames w.1))%nat).
      * rewrite lookup_app_l in Hlook by done. by apply Hrest.
      * rewrite lookup_app_r in Hlook by lia.
        destruct (i - length (issueListsNames w.1))%nat eqn:E; [|done].
        injection Hlook as <-. exists (issueIdIncrement w.1). split; [done|lia].
    + rewrite length_app. cbn. lia.
  - rewrite handle_ClickAddIssue. cbv zeta.
    unfold names_shape. cbn [fst issueListsNames issueIdIncrement].
    split_and!; [done..|lia].
Qed.

Lemma reachable_names_shape w : reachable w → names_shape w.1.
Proof.
  induction 1 as [|w e _ IH]; [apply names_shape_init|by apply names_shape_handle].
Qed.

(** Under [names_shape] no list has the name of the droppable at its own
    position. *)
Lemma names_shape_own_position (g : Store) (i : nat) (name : string) :
  names_shape g → issueListsNames g !! i = Some name →
  name ≠ "items" +:+ toString (Z.of_nat i).
Proof.
  intros (Hfirst & Hrest & _) Hlook.
  destruct (decide (i < 3)%nat) as [Hi|Hi].
  - assert (take 3 (issueListsNames g) !! i = Some name) as Ht
      by (by rewrite lookup_take_lt).
    rewrite Hfirst in Ht.
    destruct i as [|[|[|?]]]; [| | |lia]; injection Ht as <-; by vm_compute.
  - destruct (Hrest i name) as (c & -> & Hc); [lia|done|].
    intros Heq%items_name_inj. lia.
Qed.

(** Under [names_shape] no list is called [items0] or [items1]. *)
Lemma names_shape_first_droppables (g : Store) (k : Z) :
  names_shape g → 0 ≤ k ≤ 1 → "items" +:+ toString k ∉ issueListsNames g.
Proof.
  intros (Hfirst & Hrest & _) Hk (i & Hlook)%list_elem_of_lookup.
  destruct (decide (i < 3)%nat) as [Hi|Hi].
  - assert (take 3 (issueListsNames g) !! i = Some ("items" +:+ toString k)) as Ht
      by (by rewrite lookup_take_lt).
    rewrite Hfirst in Ht.
    destruct i as [|[|[|?]]]; [| | |lia]; apply (inj Some) in Ht.
    + symmetry in Ht. by apply items_name_not_items in Ht.
    + apply (items_name_inj 2 k) in Ht. lia.
    + apply (items_name_inj 3 k) in Ht. lia.
  - destruct (Hrest i _ ltac:(lia) Hlook) as (c & Heq & Hc).
    apply items_name_inj in Heq. lia.
Qed.
End rendering.

(** X4. Rendering throws exactly when a list that is shown, one whose name
    is in [issueListsNames], holds [undefined]: [arrangeIssueInList] reads
    [issue.id]. *)
Theorem render_throws_iff (w : world) :
  render w = None ↔
    ∃ name, name ∈ issueListsNames w.1 ∧
            EUndef ∈ or_empty (get (props w.2) name).
Proof. apply arrangeLists_None. Qed.

(** X5. When rendering does not throw there is one droppable per list name,
    in the order of the names; the droppable at position [i] is called
    [items] followed by [i], and its draggables carry, in order, the ids of
    the issues of [state[name]] for the name at position [i], with indices
    counting from 0.  The ids of the droppables are pairwise distinct. *)
Theorem render_shows_the_lists (w : world) (v : list Column) :
  render w = Some v →
  length v = length (issueListsNames w.1) ∧
  NoDup (droppableId <$> v) ∧
  ∀ (i : nat) col, v !! i = Some col →
    droppableId col = "items" +:+ toString (Z.of_nat i) ∧
    ∃ name, issueListsNames w.1 !! i = Some name ∧
      draggableId <$> cards col = elem_ids (or_empty (get (props w.2) name)) ∧
      index <$> cards col = seq 0 (length (or_empty (get (props w.2) name))).
Proof.
  intros Hv. destruct (arrangeLists_Some _ _ _ _ Hv) as [Hlen Hcols].
  split; [done|]. split; [|exact Hcols].
  apply NoDup_alt. intros i j d Hi Hj.
  apply list_lookup_fmap_Some in Hi as (ci & -> & Hi).
  apply list_lookup_fmap_Some in Hj as (cj & Heq & Hj).
  destruct (Hcols i ci Hi) as [Hdi _]. destruct (Hcols j cj Hj) as [Hdj _].
  rewrite Hdi, Hdj in Heq. cbn in Heq. apply items_name_inj in Heq. lia.
Qed.

Lemma render_shows_the_lists_witness :
  render (initialStore, initialState)
    = Some [ mkColumn "items0"
               [ mkCard "1" "1" 0 "This list is buggy ";
                 mkCard "2" "2" 1 "I hate lists like this... ";
                 mkCard "3" "3" 2 "Why would react do this to me ";
                 mkCard "4" "4" 3 "HAMBURGER PLEAAAAAAAAAAAAAAAASE " ];
             mkColumn "items1" []; mkColumn "items2" [] ] ∧
  length [ mkColumn "items0"
               [ mkCard "1" "1" 0 "This list is buggy ";
                 mkCard "2" "2" 1 "I hate lists like this... ";
                 mkCard "3" "3" 2 "Why would react do this to me ";
                 mkCard "4" "4" 3 "HAMBURGER PLEAAAAAAAAAAAAAAAASE " ];
             mkColumn "items1" []; mkColumn "items2" [] ]
    = length (issueListsNames initialStore).
Proof.
  assert (render (initialStore, initialState)
    = Some [ mkColumn "items0"
               [ mkCard "1" "1" 0 "This list is buggy ";
                 mkCard "2" "2" 1 "I hate lists like this... ";
                 mkCard "3" "3" 2 "Why would react do this to me ";
                 mkCard "4" "4" 3 "HAMBURGER PLEAAAAAAAAAAAAAAAASE " ];
             mkColumn "items1" []; mkColumn "items2" [] ]) as Hv
    by (by vm_compute).
  split; [exact Hv|].
  exact (proj1 (render_shows_the_lists (initialStore, initialState) _ Hv)).
Defined.

(** X6. In every state the application can reach, no list is shown in the
    droppable that carries its name: the name at position [i] is never
    [items] followed by [i].  The droppable at position 2 is called
    [items2], which is the name of the list shown at position 1. *)
Theorem droppable_is_not_its_list (w : world) :
  reachable w →
  (∀ (i : nat) name, issueListsNames w.1 !! i = Some name →
     name ≠ "items" +:+ toString (Z.of_nat i)) ∧
  issueListsNames w.1 !! 1%nat = Some ("items" +:+ toString (Z.of_nat 2)) ∧
  ∀ v, render w = Some v →
    ∀ (i : nat) col name, v !! i = Some col →
      issueListsNames w.1 !! i = Some name → droppableId col ≠ name.
Proof.
  intros Hshape%reachable_names_shape. split_and!.
  - intros i name. by apply names_shape_own_position.
  - destruct Hshape as (Hfirst & _).
    rewrite <- (lookup_take_lt (issueListsNames w.1) 3 1) by lia.
    by rewrite Hfirst.
  - intros v Hv i col name Hi Hname.
    destruct (arrangeLists_Some _ _ _ _ Hv) as [_ Hcols].
    destruct (Hcols i col Hi) as [-> _]. cbn. intros Heq.
    by apply (names_shape_own_position w.1 i name).
Qed.

Lemma droppable_is_not_its_list_witness :
  reachable (initialStore, initialState) ∧
  (∀ (i : nat) name, issueListsNames initialStore !! i = Some name →
     name ≠ "items" +:+ toString (Z.of_nat i)) ∧
  issueListsNames initialStore !! 1%nat = Some ("items" +:+ toString (Z.of_nat 2)).
Proof.
  split; [exact reachable_init|].
  pose proof (droppable_is_not_its_list (initialStore, initialState) reachable_init)
    as (H1 & H2 & _).
  exact (conj H1 H2).
Defined.

(** A MOVE between names that are not list names changes nothing that is
    rendered. *)
Lemma render_after_hidden_move (w : world) (from to : string)
    (fromIndex toIndex : Z) :
  from ∉ issueListsNames w.1 → to ∉ issueListsNames w.1 →
  render (dispatch w (MOVE from to fromIndex toIndex)) = render w.
Proof.
  intros Hfrom Hto. rewrite dispatch_MOVE.
  destruct (inherited (props w.2) from || inherited (props w.2) to); [done|].
  unfold render. cbn [fst snd props]. apply arrangeLists_ext. intros name Hin.
  unfold get. rewrite move_other_lists; [done|..]; by intros ->.
Qed.

(** X7. In every state the application can reach, a drop whose source and
    destination are the droppables at positions 0 and 1, in any combination
    and with any indices, changes nothing of what is rendered and none of
    the list names: the MOVE it dispatches works on [items0] and [items1],
    which are not lists that are shown. *)
Theorem drop_in_first_columns_shows_nothing (w : world) (a b : nat)
    (fromIndex toIndex : Z) :
  reachable w → (a ≤ 1)%nat → (b ≤ 1)%nat →
  let source := ("items" +:+ toString (Z.of_nat a), fromIndex) in
  let destination := ("items" +:+ toString (Z.of_nat b), toIndex) in
  let w' := handle w (DragEnd "DROP" source (Some destination)) in
  render w' = render w ∧
  w'.1 = w.1 ∧
  ∀ name, name ∈ issueListsNames w.1 →
    get (props w'.2) name = get (props w.2) name.
Proof.
  intros Hshape%reachable_names_shape Ha Hb. cbv zeta.
  assert ("items" +:+ toString (Z.of_nat a) ∉ issueListsNames w.1) as Hfrom
    by (apply names_shape_first_droppables; [done|lia]).
  assert ("items" +:+ toString (Z.of_nat b) ∉ issueListsNames w.1) as Hto
    by (apply names_shape_first_droppables; [done|lia]).
  unfold handle. rewrite bool_decide_eq_true_2 by done. cbn [fst snd].
  split_and!.
  - by apply render_after_hidden_move.
  - rewrite dispatch_MOVE. by rewrite !inherited_items.
  - intros name Hin. rewrite dispatch_MOVE, !inherited_items. cbn [orb snd props].
    unfold get. rewrite move_other_lists; [done|..]; by intros ->.
Qed.

Lemma drop_in_first_columns_shows_nothing_witness :
  reachable (initialStore, initialState) ∧ (0 ≤ 1)%nat ∧ (0 ≤ 1)%nat ∧
  let w := (initialStore, initialState) in
  let source := ("items" +:+ toString (Z.of_nat 0), 0) in
  let destination := ("items" +:+ toString (Z.of_nat 0), 2) in
  let w' := handle w (DragEnd "DROP" source (Some destination)) in
  render w' = render w ∧
  w'.1 = w.1 ∧
  ∀ name, name ∈ issueListsNames w.1 →
    get (props w'.2) name = get (props w.2) name.
Proof.
  assert (0 ≤ 1)%nat as H01 by lia.
  split; [exact reachable_init|]. split; [exact H01|]. split; [exact H01|].
  exact (drop_in_first_columns_shows_nothing (initialStore, initialState)
           0 0 0 2 reachable_init H01 H01).
Defined.

(** ** Add Issue List and Add Issue together *)

Lemma arrangeLists_empty_state (n : nat) (names : list string) :
  ∃ v, arrangeLists ∅ n names = Some v ∧
       length v = length names ∧ Forall (λ col, cards col = []) v.
Proof.
  revert n. induction names as [|item names IH]; intros n.
  - by exists [].
  - destruct (IH (S n)) as (v & Hv & Hlen & Hall). cbn.
    unfold arrangeDataInDragDropList, get. rewrite lookup_empty. cbn. rewrite Hv.
    eexists. split; [done|]. split; [cbn; by rewrite Hlen|].
    by constructor.
Qed.

Lemma ids_of_undefined_rows (names : list string) :
  ids_of ((λ item, (item, Undef)) <$> names) = [].
Proof. induction names as [|a names IH]; [done|]. cbn. exact IH. Qed.

(** X8. Whatever the state, after [Add Issue List] nothing is shown: the
    reducer has returned an array, on which [state[name]] is [undefined] for
    every name, so that rendering gives one droppable per name, the new one
    included, and no draggable in any of them.  The lists themselves are
    still held by the one-key objects of the array, under their names. *)
Theorem add_list_shows_no_issue (w : world) :
  let w' := handle w ClickAddList in
  (∃ v, render w' = Some v ∧
        length v = S (length (issueListsNames w.1)) ∧
        Forall (λ col, cards col = []) v) ∧
  (∀ name, get (props w'.2) name = Undef) ∧
  rows w'.2 = Some ((λ item, (item, get (props w.2) item)) <$> issueListsNames w'.1).
Proof.
  cbv zeta. rewrite handle_ClickAddList. cbv zeta. split_and!.
  - unfold render. cbn [fst snd props arr_of_rows issueListsNames].
    destruct (arrangeLists_empty_state 0
                (issueListsNames w.1 ++ ["items" +:+ toString (issueIdIncrement w.1)]))
      as (v & Hv & Hlen & Hall).
    exists v. split; [done|]. split; [|done].
    rewrite Hlen, length_app. cbn. lia.
  - intros name. cbn. unfold get. by rewrite lookup_empty.
  - done.
Qed.

(** X9. Whatever the state, two or more presses of [Add Issue List] in a
    row leave a state without any issue: the second press builds the array
    from [state[name]], which is [undefined] on the array the first press
    left. *)
Theorem add_list_twice_loses_the_issues (w : world) (k : nat) :
  let w' := add_lists (S (S k)) w in
  rows w'.2 = Some ((λ item, (item, Undef)) <$> issueListsNames w'.1) ∧
  props w'.2 = ∅ ∧
  board_ids w'.2 = [] ∧
  issue_count (props w'.2) = 0%nat.
Proof.
  cbv zeta. rewrite add_lists_S.
  set (w1 := add_lists (S k) w).
  assert (props w1.2 = ∅) as Hempty
    by (subst w1; by rewrite add_lists_S, handle_ClickAddList).
  rewrite handle_ClickAddList. cbv zeta. cbn [fst snd rows props arr_of_rows].
  assert (∀ names : list string,
    (λ item, (item, get (props w1.2) item)) <$> names
    = (λ item, (item, Undef)) <$> names) as Hrows.
  { intros names. apply list_fmap_ext. intros _ item _.
    rewrite Hempty. unfold get. by rewrite lookup_empty. }
  rewrite Hrows. split_and!; [done..| |done].
  change (board_ids ?s) with (ids_of (board_lists s)).
  unfold board_lists, arr_of_rows. cbn [rows props default].
  rewrite map_to_list_empty, app_nil_r. apply ids_of_undefined_rows.
Qed.

(** X10. Whatever the state, [Add Issue List] followed by [Add Issue]
    leaves a board that consists of the one new issue: [items] holds it
    alone, [items2] and [items3] are [undefined], and there is no other
    list.  With [c] the counter before the two presses, [Add Issue List]
    uses [c] for the name of the new list and leaves the counter at [c + 1],
    and [Add Issue] increments it once more: the issue has the id [c + 2]. *)
Theorem add_list_then_add_issue (w : world) :
  let c := issueIdIncrement w.1 in
  let w' := handle (handle w ClickAddList) ClickAddIssue in
  w'.2 = obj (<["items3" := Undef]>
             (<["items2" := Undef]>
             (<["items" := Arr [EIssue (new_issue (c + 2))]]> ∅))) ∧
  board_ids w'.2 = [toString (c + 2)] ∧
  issueListsNames w'.1 = issueListsNames w.1 ++ ["items" +:+ toString c].
Proof.
  cbv zeta. rewrite handle_ClickAddIssue. cbv zeta.
  rewrite handle_ClickAddList. cbv zeta.
  cbn [fst snd props arr_of_rows issueIdIncrement issueListsNames].
  assert (∀ name, get (∅ : gmap string cell) name = Undef) as Hget
    by (intros name; unfold get; by rewrite lookup_empty).
  rewrite !Hget. cbn [or_empty app].
  rewrite <- Z.add_assoc. change (1 + 1) with 2.
  split_and!; [done| |done].
  change (board_ids ?s) with (ids_of (board_lists s)).
  unfold board_lists, obj. cbn [rows props default app].
  change (toString (issueIdIncrement w.1 + 2))
    with (id (new_issue (issueIdIncrement w.1 + 2))).
  generalize (new_issue (issueIdIncrement w.1 + 2)). intros x.
  by vm_compute.
Qed.

(** X11. Whatever the state, [Add Issue] returns an object with the three
    keys [items], [items2] and [items3] and no other: [items] is
    [state.items] followed by the new issue, [items2] and [items3] are what
    the state had under these names, and a list the state had under any
    other name, one added with [Add Issue List] included, is not in the
    result.  The new issue has the counter's next value as its id and
    [Test] followed by it as its content, and the counter is left at that
    value.  The array [test] holds the same three lists afterwards, and the
    number of issues is that of these three lists plus one. *)
Theorem add_issue_keeps_three_lists (w : world) :
  let m := props w.2 in
  let n := issueIdIncrement w.1 + 1 in
  let w' := handle w ClickAddIssue in
  rows w'.2 = None ∧
  props w'.2 !! "items"
    = Some (Arr (or_empty (get m "items")
                 ++ [EIssue (mkIssue (toString n) ("Test" +:+ toString n))])) ∧
  issueIdIncrement w'.1 = n ∧
  issueListsNames w'.1 = issueListsNames w.1 ∧
  get (props w'.2) "items2" = get m "items2" ∧
  get (props w'.2) "items3" = get m "items3" ∧
  (∀ k, k ≠ "items" → k ≠ "items2" → k ≠ "items3" → props w'.2 !! k = None) ∧
  test_get (test w'.1) 0 = get (props w'.2) "items" ∧
  test_get (test w'.1) 1 = get (props w'.2) "items2" ∧
  test_get (test w'.1) 2 = get (props w'.2) "items3" ∧
  issue_count (props w'.2)
    = (issues_in (or_empty (get m "items")) + issues_in (or_empty (get m "items2"))
       + issues_in (or_empty (get m "items3")) + 1)%nat.
Proof.
  cbv zeta. rewrite handle_ClickAddIssue. cbv zeta.
  cbn [fst snd rows props obj test issueIdIncrement issueListsNames].
  split_and!.
  - done.
  - rewrite (lookup_insert_ne _ "items3" "items"),
      (lookup_insert_ne _ "items2" "items") by done.
    apply lookup_insert_eq.
  - done.
  - done.
  - by rewrite (get_insert_ne _ "items3" "items2"), get_insert_eq.
  - by rewrite get_insert_eq.
  - intros k H1 H2 H3. by rewrite !lookup_insert_ne, lookup_empty.
  - rewrite test_get_set_eq.
    by rewrite (get_insert_ne _ "items3" "items"),
      (get_insert_ne _ "items2" "items"), get_insert_eq.
  - rewrite (test_get_set_ne _ 0 1), (test_get_set_ne _ 2 1), test_get_set_eq by done.
    by rewrite (get_insert_ne _ "items3" "items2"), get_insert_eq.
  - rewrite (test_get_set_ne _ 0 2), test_get_set_eq by done.
    by rewrite get_insert_eq.
  - unfold issue_count. rewrite sum_lists_insert.
    rewrite delete_insert_ne, sum_lists_insert by done.
    rewrite !delete_insert_ne, sum_lists_insert by done.
    rewrite !delete_empty. unfold sum_lists at 1. rewrite map_fold_empty.
    cbn [or_empty]. rewrite issues_in_app.
    change (issues_in [EIssue (new_issue (issueIdIncrement w.1 + 1))]) with 1%nat.
    lia.
Qed.

(** ** Every id at most once *)

Section unique_ids.
Implicit Types (w : world) (s : jsstate) (m : gmap string cell) (i : string).

(** Reading a map under pairwise distinct names counts no issue twice. *)
Lemma occurrences_rows_le i m (names : list string) :
  NoDup names →
  (occurrences i (ids_of ((λ item, (item, get m item)) <$> names))
   ≤ sum_lists (id_occurrences i) m)%nat.
Proof.
  intros Hnd. revert m. induction Hnd as [|a names Ha Hnd IH]; intros m.
  - cbn. lia.
  - rewrite fmap_cons, occurrences_ids_of_cons. cbn [snd].
    rewrite (measure_get_lookup (id_occurrences i) (id_occurrences_app i) eq_refl m a).
    assert ((λ item, (item, get m item)) <$> names
            = (λ item, (item, get (delete a m) item)) <$> names) as ->.
    { apply list_fmap_ext. intros k item Hk.
      rewrite get_delete_ne; [done|]. intros ->.
      apply Ha. by apply list_elem_of_lookup_2 in Hk. }
    specialize (IH (delete a m)). lia.
Qed.

Lemma occurrences_props_le i s :
  (sum_lists (id_occurrences i) (props s) ≤ occurrences i (board_ids s))%nat.
Proof. rewrite occurrences_board_ids. lia. Qed.

Lemma NoDup_occurrences (l : list string) :
  NoDup l ↔ ∀ i, (occurrences i l ≤ 1)%nat.
Proof. rewrite NoDup_ListNoDup. apply (List.NoDup_count_occ String.eq_dec). Qed.

Lemma occurrences_not_elem_of i (l : list string) :
  i ∉ l → occurrences i l = 0%nat.
Proof.
  intros Hi. apply List.count_occ_not_In. by rewrite <- list_elem_of_In.
Qed.

Lemma unique_ids_init : NoDup (board_ids initialState).
Proof. apply (bool_decide_unpack _). by vm_compute. Qed.

(** The handlers keep the ids on the board pairwise distinct. *)
Lemma unique_ids_handle w (e : event) :
  ids_bounded w → names_fresh w.1 →
  NoDup (board_ids w.2) → NoDup (board_ids (handle w e).2).
Proof.
  intros Hb [Hnames Hfresh] Hnd. destruct e as [reason source destination| |].
  - destruct (handle_DragEnd w reason source destination)
      as [->|(d & _ & ->)]; [done|].
    apply NoDup_occurrences. intros i. cbn [snd].
    rewrite occurrences_after_move. by apply NoDup_occurrences.
  - rewrite handle_ClickAddList. cbv zeta. cbn [snd].
    apply NoDup_occurrences. intros i.
    rewrite occurrences_board_ids. unfold arr_of_rows. cbn [rows props default].
    unfold sum_lists at 1. rewrite map_fold_empty, Nat.add_0_r.
    etrans; [apply occurrences_rows_le|].
    + apply NoDup_app. split_and!; [done| |apply NoDup_singleton].
      intros name Hin ->%list_elem_of_singleton.
      by apply (Hfresh (issueIdIncrement w.1)).
    + etrans; [apply occurrences_props_le|]. by apply NoDup_occurrences.
  - rewrite handle_ClickAddIssue. cbv zeta. cbn [snd].
    apply NoDup_occurrences. intros i.
    set (new := new_issue (issueIdIncrement w.1 + 1)).
    rewrite occurrences_board_ids. unfold obj. cbn [rows props default].
    change (occurrences i (ids_of [])) with 0%nat. rewrite Nat.add_0_l.
    rewrite sum_lists_insert.
    rewrite delete_insert_ne, sum_lists_insert by done.
    rewrite !delete_insert_ne, sum_lists_insert by done.
    rewrite !delete_empty. unfold sum_lists at 1. rewrite map_fold_empty.
    cbn [or_empty]. rewrite id_occurrences_app.
    pose proof (occurrences_rows_le i (props w.2) ["items3"; "items2"; "items"])
      as Hle.
    rewrite !fmap_cons, fmap_nil, !occurrences_ids_of_cons in Hle. cbn [snd] in Hle.
    change (occurrences i (ids_of [])) with 0%nat in Hle.
    assert (NoDup ["items3"; "items2"; "items"]) as Hthree
      by (apply (bool_decide_unpack _); by vm_compute).
    specialize (Hle Hthree).
    pose proof (occurrences_props_le i w.2) as Hprops.
    pose proof (proj1 (NoDup_occurrences _) Hnd i) as Hone.
    destruct (decide (i = id new)) as [->|Hne].
    + assert (occurrences (id new) (board_ids w.2) = 0%nat) as Hzero.
      { apply occurrences_not_elem_of, fresh_id_not_on_board; [done|lia]. }
      assert (id_occurrences (id new) [EIssue new] = 1%nat) as Hnew.
      { unfold id_occurrences, occurrences.
        change (elem_ids [EIssue new]) with [id new].
        by rewrite List.count_occ_cons_eq. }
      lia.
    + assert (id_occurrences i [EIssue new] = 0%nat) as Hnew.
      { unfold id_occurrences, occurrences.
        change (elem_ids [EIssue new]) with [id new].
        by rewrite List.count_occ_cons_neq. }
      lia.
Qed.
End unique_ids.

(** X12. In every state the application can reach, every issue id occurs
    at most once on the whole board: in at most one list, and at most once
    in it. *)
Theorem reachable_ids_unique (w : world) :
  reachable w → NoDup (board_ids w.2).
Proof.
  intros Hw. induction Hw as [|w e Hw IH]; [apply unique_ids_init|].
  apply unique_ids_handle; [by apply reachable_ids_bounded| |done].
  by apply reachable_names_fresh.
Qed.

Lemma reachable_ids_unique_witness :
  reachable (handle (initialStore, initialState) ClickAddIssue) ∧
  NoDup (board_ids (handle (initialStore, initialState) ClickAddIssue).2).
Proof.
  assert (reachable (handle (initialStore, initialState) ClickAddIssue)) as Hw
    by (apply reachable_step, reachable_init).
  split; [exact Hw|].
  exact (reachable_ids_unique _ Hw).
Defined.

(** ** ADDITEM away from the three lists *)

(** X13. ADDITEM with [myIndex] 3 or more uses up an id without showing an
    issue: the counter goes up by one and the new issue is put, after
    [myData], into [test[myIndex]], but the object returned is made of
    [test[0]], [test[1]] and [test[2]], which are as they were. *)
Theorem additem_beyond_third_list (g : Store) (s : jsstate) (pass : string)
    (myIndex : nat) (myData : cell) :
  (3 ≤ myIndex)%nat →
  let n := issueIdIncrement g + 1 in
  ∃ g', dragReducer g s (ADDITEM pass myIndex myData)
          = (g', Returned (obj (<["items3" := test_get (test g) 2]>
                               (<["items2" := test_get (test g) 1]>
                               (<["items" := test_get (test g) 0]> ∅))))) ∧
        issueIdIncrement g' = n ∧
        test_get (test g') myIndex = Arr (or_empty myData ++ [EIssue (new_issue n)]).
Proof.
  intros Hi. cbv zeta. rewrite dragReducer_ADDITEM. cbv zeta.
  eexists. split.
  - rewrite (test_get_set_ne _ myIndex 2), (test_get_set_ne _ myIndex 1),
      (test_get_set_ne _ myIndex 0) by lia.
    reflexivity.
  - split; [reflexivity|apply test_get_set_eq].
Qed.

Lemma additem_beyond_third_list_witness :
  (3 ≤ 3)%nat ∧
  ∃ g', dragReducer initialStore initialState (ADDITEM "items" 3 Undef)
          = (g', Returned (obj (<["items3" := test_get (test initialStore) 2]>
                               (<["items2" := test_get (test initialStore) 1]>
                               (<["items" := test_get (test initialStore) 0]> ∅))))) ∧
        issueIdIncrement g' = issueIdIncrement initialStore + 1 ∧
        test_get (test g') 3
          = Arr (or_empty Undef
                 ++ [EIssue (new_issue (issueIdIncrement initialStore + 1))]).
Proof.
  assert (3 ≤ 3)%nat as Hi by lia.
  split; [exact Hi|].
  exact (additem_beyond_third_list initialStore initialState "items" 3 Undef Hi).
Defined.

(** ** A drop that takes nothing *)

Lemma elem_of_insert_at_here (n : nat) (x : elem) (l : list elem) :
  x ∈ insert_at n x l.
Proof. unfold insert_at. apply elem_of_app. right. apply list_elem_of_here. Qed.

(** X20. A MOVE whose [fromIndex] is at or past the end of the [from] list
    (a missing list counting as empty) and whose [to] is a list that is
    shown makes the next rendering throw: [undefined] is now in that list.
    (When one of the names is one the state inherits, it is the reducer that
    throws.)  On the initial board this is what dropping onto the third
    droppable a card taken from the first one does, the first droppable
    being [items0], which is no list, and the third [items2]. *)
Theorem drop_of_nothing_breaks_rendering (w : world) (from to : string)
    (fromIndex toIndex : Z) :
  to ∈ issueListsNames w.1 →
  Z.of_nat (length (or_empty (get (props w.2) from))) ≤ fromIndex →
  if inherited (props w.2) from || inherited (props w.2) to
  then dragReducer w.1 w.2 (MOVE from to fromIndex toIndex) = (w.1, RuntimeError)
  else render (dispatch w (MOVE from to fromIndex toIndex)) = None.
Proof.
  intros Hto Hi.
  destruct (inherited (props w.2) from || inherited (props w.2) to) eqn:Hinh;
    [by apply dragReducer_MOVE_inherited|].
  unfold render. apply arrangeLists_None.
  exists to. rewrite dispatch_MOVE, Hinh. cbn [fst snd props].
  split; [done|].
  rewrite move_unfold. cbv zeta.
  rewrite (splice_remove_beyond _ _ Hi). cbn [fst snd first].
  rewrite get_insert_eq. cbn [or_empty]. apply elem_of_insert_at_here.
Qed.

Lemma drop_of_nothing_breaks_rendering_witness :
  "items2" ∈ issueListsNames initialStore ∧
  Z.of_nat (length (or_empty (get (props initialState) "items0"))) ≤ 0 ∧
  render (handle (initialStore, initialState)
            (DragEnd "DROP" ("items0", 0) (Some ("items2", 0)))) = None.
Proof.
  assert ("items2" ∈ issueListsNames initialStore) as Hto
    by (apply list_elem_of_further, list_elem_of_here).
  assert (Z.of_nat (length (or_empty (get (props initialState) "items0"))) ≤ 0)
    as Hi by (by vm_compute).
  split; [exact Hto|]. split; [exact Hi|].
  exact (drop_of_nothing_breaks_rendering (initialStore, initialState)
           "items0" "items2" 0 0 Hto Hi).
Defined.

(** * The authentication middleware of the backend

    [backend/src/middlewares/auth.ts] and the [/me] route of
    [backend/src/controllers/UserController.ts].  What lies outside these
    files is a parameter: [verify] of djwt (with the key), which gives a
    payload or rejects; [decodeJwtFromHeader] of [util.ts], as the email it
    finds when that is a string; [findOne] of the user model. *)

From Stdlib Require Import Ascii.

Module Auth.

(** [s.split(sep)] for a separator of one character: the pieces between the
    occurrences of the separator, empty pieces included. *)
Fixpoint split (sep : ascii) (s : string) : list string :=
  match s with
  | EmptyString => [""]
  | String c s' =>
      if decide (c = sep) then "" :: split sep s'
      else match split sep s' with
           | piece :: pieces => String c piece :: pieces
           | [] => [String c ""]
           end
  end.

(** Whether the character occurs in the string. *)
Fixpoint occurs (c : ascii) (s : string) : bool :=
  match s with
  | EmptyString => false
  | String c' s' => bool_decide (c' = c) || occurs c s'
  end.

(** What [verify(jwt, key)] comes to: a payload, truthy or not, or a
    rejection (the promise rejects and the exception leaves the
    middleware). *)
Inductive verified :=
  | Payload (truthy : bool)
  | Rejected.

(** How the middleware ends: it answers itself, with a status and possibly
    a body [{ msg }]; it calls [next()]; or the exception of [verify] leaves
    it. *)
Inductive outcome :=
  | Respond (status : Z) (msg : option string)
  | Next
  | Raise.

(** [authMiddleware], on the value of [Headers.get('Authorization')]. *)
Definition authMiddleware (verify : string → verified)
    (authHeader : option string) : outcome :=
  match authHeader with
  | None =>
      (* if (authHeader == null) { status = 401; body = { msg: 'Unauthorized!' } } *)
      Respond 401 (Some "Unauthorized!")
  | Some header =>
      (* const jwt = authHeader.split(' ')[1]; if (!jwt) { status = 401 } *)
      match split " " header !! 1%nat with
      | None => Respond 401 None
      | Some jwt =>
          if decide (jwt = "") then Respond 401 None
          else
            (* const data = await verify(jwt, key); *)
            match verify jwt with
            | Payload true => Next
            | Payload false => Respond 401 None
            | Rejected => Raise
            end
      end
  end.

(** The double quote, as a string. *)
Definition quote : string := String "034"%char "".

(** A user as the [/me] route reads it. *)
Record User := mkUser { username : string; email : string; password : string }.

(** What a route answers: the error of a failed [ctx.assert], or a body. *)
Inductive response :=
  | Failed (status : Z) (message : string)
  | Body (message : string) (u : User)
  | NoAnswer (o : outcome).

(** The handler of [/me]. *)
Definition me (decode : string → option string) (findOne : string → option User)
    (authHeader : option string) : response :=
  match authHeader with
  | None => Failed 400 "No token supplied!"
  | Some header =>
      match decode header with
      | None => Failed 400 "Wrong token-payload!"
      | Some mail =>
          match findOne mail with
          | None => Failed 400 "User from token not found!"
          | Some u => Body ("User " +:+ quote +:+ username u +:+ quote +:+ " retrieved.") u
          end
      end
  end.

(** [router.get('/me', authMiddleware, handler)]: the handler runs when the
    middleware calls [next()]. *)
Definition me_route (verify : string → verified) (decode : string → option string)
    (findOne : string → option User) (authHeader : option string) : response :=
  match authMiddleware verify authHeader with
  | Next => me decode findOne authHeader
  | o => NoAnswer o
  end.

Section split.
Variable sep : ascii.
Implicit Types (s piece : string) (pieces : list string).

Lemma app_String s1 (c : ascii) s2 :
  String c s1 +:+ s2 = String c (s1 +:+ s2).
Proof. reflexivity. Qed.

Lemma split_String (c : ascii) s :
  split sep (String c s) =
    if decide (c = sep) then "" :: split sep s
    else match split sep s with
         | piece :: pieces => String c piece :: pieces
         | [] => [String c ""]
         end.
Proof. reflexivity. Qed.

Lemma occurs_String (c : ascii) s :
  occurs sep (String c s) = bool_decide (c = sep) || occurs sep s.
Proof. reflexivity. Qed.

(** The first piece has no separator in it; it is the whole string, or what
    comes before the first separator, the other pieces being those of what
    comes after it. *)
Lemma split_first s :
  ∃ piece pieces, split sep s = piece :: pieces ∧ occurs sep piece = false ∧
    ((s = piece ∧ pieces = []) ∨
     ∃ r, s = piece +:+ String sep r ∧ pieces = split sep r).
Proof.
  induction s as [|c s (piece & pieces & Hs & Hp & Hor)].
  - exists "", []. split_and!; [done..|by left].
  - rewrite split_String. destruct (decide (c = sep)) as [->|Hc].
    + exists "", (split sep s). split_and!; [done..|]. right. by exists s.
    + rewrite Hs. exists (String c piece), pieces. split_and!; [done| |].
      * rewrite occurs_String, Hp. by rewrite bool_decide_eq_false_2.
      * destruct Hor as [[-> ->]|(r & -> & ->)]; [by left|].
        right. by exists r.
Qed.

(** Up to the first separator. *)
Lemma split_app piece r :
  occurs sep piece = false →
  split sep (piece +:+ String sep r) = piece :: split sep r.
Proof.
  induction piece as [|c piece IH]; intros Hp.
  - change ("" +:+ String sep r) with (String sep r).
    by rewrite split_String, decide_True.
  - rewrite occurs_String in Hp. apply orb_false_iff in Hp as [Hc Hp].
    rewrite app_String, split_String.
    rewrite decide_False by (by apply bool_decide_eq_false in Hc).
    by rewrite IH.
Qed.

Lemma split_whole s : occurs sep s = false → split sep s = [s].
Proof.
  induction s as [|c s IH]; intros Hs; [done|].
  rewrite occurs_String in Hs. apply orb_false_iff in Hs as [Hc Hs].
  rewrite split_String.
  rewrite decide_False by (by apply bool_decide_eq_false in Hc).
  by rewrite IH.
Qed.

(** The second piece, when there is one, is what stands between the first
    separator and the next one, or the end. *)
Lemma split_second s piece :
  split sep s !! 1%nat = Some piece ↔
    ∃ first, occurs sep first = false ∧ occurs sep piece = false ∧
      (s = first +:+ String sep piece ∨
       ∃ r, s = first +:+ String sep (piece +:+ String sep r)).
Proof.
  split.
  - destruct (split_first s) as (first & pieces & Hs & Hf & Hor).
    rewrite Hs. cbn. intros Hp.
    destruct Hor as [[_ ->]|(r & -> & ->)]; [done|].
    destruct (split_first r) as (p & ps & Hr & Hpfree & Hor).
    rewrite Hr in Hp. injection Hp as ->.
    exists first. split_and!; [done..|].
    destruct Hor as [[-> _]|(r' & -> & _)]; [by left|right; by exists r'].
  - intros (first & Hf & Hp & [->|(r & ->)]).
    + rewrite split_app by done. cbn. by rewrite split_whole.
    + rewrite split_app by done. cbn. by rewrite split_app.
Qed.
End split.

(** X14. The middleware lets a request through exactly when its
    Authorization header is some text without a space, a space, and then a
    non-empty token that [verify] accepts with a truthy payload, followed by
    nothing or by a space and anything at all. *)
Theorem authMiddleware_next_iff (verify : string → verified) (header : string) :
  authMiddleware verify (Some header) = Next ↔
    ∃ scheme jwt,
      occurs " " scheme = false ∧ occurs " " jwt = false ∧ jwt ≠ "" ∧
      verify jwt = Payload true ∧
      (header = scheme +:+ String " " jwt ∨
       ∃ r, header = scheme +:+ String " " (jwt +:+ String " " r)).
Proof.
  unfold authMiddleware. split.
  - destruct (split " " header !! 1%nat) as [jwt|] eqn:Hjwt; [|done].
    destruct (decide (jwt = "")) as [|Hne]; [done|].
    destruct (verify jwt) as [[|]|] eqn:Hv; try done. intros _.
    apply split_second in Hjwt as (scheme & ? & ? & ?).
    by exists scheme, jwt.
  - intros (scheme & jwt & Hs & Hj & Hne & Hv & Hh).
    assert (split " " header !! 1%nat = Some jwt) as ->.
    { apply split_second. by exists scheme. }
    by rewrite decide_False, Hv.
Qed.

(** X15. The middleware does not look at what stands before the first
    space: two headers that differ only there are treated alike, so that any
    word, or none, does for [Bearer]. *)
Theorem authMiddleware_ignores_scheme (verify : string → verified)
    (scheme scheme' rest : string) :
  occurs " " scheme = false → occurs " " scheme' = false →
  authMiddleware verify (Some (scheme +:+ String " " rest))
    = authMiddleware verify (Some (scheme' +:+ String " " rest)).
Proof.
  intros Hs Hs'. unfold authMiddleware. by rewrite !split_app.
Qed.

Lemma authMiddleware_ignores_scheme_witness :
  occurs " " "Bearer" = false ∧ occurs " " "Basic" = false ∧
  authMiddleware (λ _, Payload true) (Some ("Bearer" +:+ String " " "abc"))
    = authMiddleware (λ _, Payload true) (Some ("Basic" +:+ String " " "abc")).
Proof.
  assert (occurs " " "Bearer" = false) as H1 by reflexivity.
  assert (occurs " " "Basic" = false) as H2 by reflexivity.
  split; [exact H1|]. split; [exact H2|].
  exact (authMiddleware_ignores_scheme (λ _, Payload true) "Bearer" "Basic" "abc"
           H1 H2).
Defined.

(** X16. A header is answered 401, without a body and whatever [verify]
    would have said of it, when it has no space in it (a bare token) and
    when a second space follows the first directly. *)
Theorem authMiddleware_refuses_without_verify (verify : string → verified)
    (header : string) :
  (occurs " " header = false ∨
   ∃ scheme r, occurs " " scheme = false ∧
               header = scheme +:+ String " " (String " " r)) →
  authMiddleware verify (Some header) = Respond 401 None.
Proof.
  unfold authMiddleware. intros [Hh|(scheme & r & Hs & ->)].
  - by rewrite split_whole.
  - rewrite split_app by done. cbn. by rewrite decide_True.
Qed.

Lemma authMiddleware_refuses_without_verify_witness :
  (occurs " " "abc.def.ghi" = false ∨
   ∃ scheme r, occurs " " scheme = false ∧
               "abc.def.ghi" = scheme +:+ String " " (String " " r)) ∧
  authMiddleware (λ _, Payload true) (Some "abc.def.ghi") = Respond 401 None.
Proof.
  assert (occurs " " "abc.def.ghi" = false ∨
          ∃ scheme r, occurs " " scheme = false ∧
                      "abc.def.ghi" = scheme +:+ String " " (String " " r)) as H
    by (left; reflexivity).
  split; [exact H|].
  exact (authMiddleware_refuses_without_verify (λ _, Payload true) "abc.def.ghi" H).
Defined.

(** X17. The [/me] route never answers [No token supplied!]: a request
    without the header has been answered 401 by the middleware before the
    handler runs.  When the route answers with a user, the header was let
    through by the middleware and the user is the one [findOne] gives for
    the email decoded from the header. *)
Theorem me_route_answers (verify : string → verified)
    (decode : string → option string) (findOne : string → option User)
    (authHeader : option string) :
  me_route verify decode findOne authHeader ≠ Failed 400 "No token supplied!" ∧
  (authHeader = None →
   me_route verify decode findOne authHeader
     = NoAnswer (Respond 401 (Some "Unauthorized!"))) ∧
  ∀ message u, me_route verify decode findOne authHeader = Body message u →
    ∃ header mail, authHeader = Some header ∧
      authMiddleware verify (Some header) = Next ∧
      decode header = Some mail ∧ findOne mail = Some u.
Proof.
  unfold me_route. split_and!.
  - destruct authHeader as [header|]; [|done].
    destruct (authMiddleware verify (Some header)); try done.
    unfold me. destruct (decode header) as [mail|]; [|done].
    by destruct (findOne mail).
  - by intros ->.
  - intros message u. destruct authHeader as [header|]; [|done].
    destruct (authMiddleware verify (Some header)) eqn:Hmw; try done.
    unfold me. destruct (decode header) as [mail|] eqn:Hd; [|done].
    destruct (findOne mail) as [u'|] eqn:Hu; [|done].
    intros [= _ <-]. by exists header, mail.
Qed.

End Auth.

(** * The login form

    [frontend/src/Views/Login.tsx].  The component keeps what is typed in
    three [let] variables of its function body and only [error] in React
    state.  A change of state renders the component again: the body runs
    anew, the variables are new and hold their initial values, and the
    handlers of the new render replace those of the old one.
    [authenticateMe] is outside the file; its answer comes with the click. *)

Module Login.

(** The variables of the render on screen, and the state [error]. *)
Record view := mkView {
  username : string;
  pass : string;
  email : string;
  error : bool
}.

(** A render: [let pass = '123456789'; let username = 'test12';
    let email = 'test@test.com']. *)
Definition rendered (error : bool) : view :=
  mkView "test12" "123456789" "test@test.com" error.

(** [setError(b)]: a render when the state changes, none otherwise. *)
Definition setError (b : bool) (v : view) : view :=
  if decide (error v = b) then v else rendered b.

(** The events the JSX wires: [onChange] of the two inputs ([setEmail] on
    the first, [setPassValue] on the second; [getUserValue] is attached to
    nothing), and [onClick] of the two buttons, the first with what
    [authenticateMe] will answer. *)
Inductive event :=
  | ChangeEmail (value : string)
  | ChangePassword (value : string)
  | ClickLogin (authenticated : bool)
  | ClickSignup.

(** What leaves the component. *)
Inductive effect :=
  | Authenticate (username pass email : string)
  | BoardSetup
  | Navigate (path : string)
  | Alert (message : string).

Definition step (v : view) (e : event) : view * list effect :=
  match e with
  | ChangeEmail value => (mkView (username v) (pass v) value (error v), [])
  | ChangePassword value => (mkView (username v) value (email v) (error v), [])
  | ClickLogin authenticated =>
      (* setError(false); e.preventDefault();
         if (await authenticateMe(username, pass, email)) ... *)
      let call := Authenticate (username v) (pass v) (email v) in
      let v1 := setError false v in
      if authenticated
      then (v1, [call; BoardSetup; Navigate "/board"])
      else (setError true v1, [call; Alert "Wrong login info"])
  | ClickSignup => (v, [Navigate "/signup"])
  end.

(** A sequence of events, with all that leaves the component in order. *)
Fixpoint run (v : view) (es : list event) : view * list effect :=
  match es with
  | [] => (v, [])
  | e :: es' =>
      let '(v1, out1) := step v e in
      let '(v2, out2) := run v1 es' in
      (v2, out1 ++ out2)
  end.

Lemma step_username (v : view) (e : event) :
  username v = "test12" → username (step v e).1 = "test12".
Proof.
  intros Hu. destruct e as [value|value|[|]|]; cbn; try done;
    unfold setError; repeat case_decide; done.
Qed.

Lemma run_username (v : view) (es : list event) (u p m : string) :
  username v = "test12" →
  Authenticate u p m ∈ (run v es).2 → u = "test12".
Proof.
  revert v. induction es as [|e es IH]; intros v Hu; cbn.
  - by intros ?%elem_of_nil.
  - pose proof (step_username v e Hu) as Hu1.
    destruct (step v e) as [v1 out1] eqn:Hstep.
    destruct (run v1 es) as [v2 out2] eqn:Hrun. cbn.
    intros [Hin|Hin]%elem_of_app.
    + destruct e as [value|value|[|]|]; cbn in Hstep; simplify_eq;
        repeat (apply elem_of_cons in Hin as [Hin|Hin]);
        try (by apply elem_of_nil in Hin); by simplify_eq.
    + apply (IH v1); [done|]. by rewrite Hrun.
Qed.

(** X18. Whatever is typed and clicked, in any order and any number of
    times, [authenticateMe] is only ever called with the username [test12]:
    no input changes the variable. *)
Theorem username_is_never_typed (es : list event) (u p m : string) :
  Authenticate u p m ∈ (run (rendered false) es).2 → u = "test12".
Proof. by apply run_username. Qed.

Lemma username_is_never_typed_witness :
  Authenticate "test12" "secret" "me@example.org"
    ∈ (run (rendered false)
         [ChangeEmail "me@example.org"; ChangePassword "secret"; ClickLogin true]).2 ∧
  "test12" = "test12".
Proof.
  assert (Authenticate "test12" "secret" "me@example.org"
    ∈ (run (rendered false)
         [ChangeEmail "me@example.org"; ChangePassword "secret"; ClickLogin true]).2)
    as Hin by (cbn; apply list_elem_of_here).
  split; [exact Hin|].
  exact (username_is_never_typed _ _ _ _ Hin).
Defined.

(** X19. After a login that failed, the next click on Login, with nothing
    typed in between, sends the initial email and password, whatever had
    been typed before the first click: the failure has set [error], and the
    render that followed started from the initial values.  What was typed is
    sent by the first click. *)
Theorem typed_values_are_lost_after_a_failure (v : view) (authenticated : bool) :
  let '(v1, out1) := step v (ClickLogin false) in
  let '(v2, out2) := step v1 (ClickLogin authenticated) in
  head out1 = Some (Authenticate (username v) (pass v) (email v)) ∧
  v1 = rendered true ∧
  head out2 = Some (Authenticate "test12" "123456789" "test@test.com").
Proof.
  destruct v as [u p m [|]], authenticated; cbn; unfold setError; cbn; done.
Qed.

End Login.
